(** * BasicGraphicsScene: the scene that mirrors a graph model

    A shallow embedding of [QtNodes::BasicGraphicsScene]
    (BasicGraphicsScene.cpp): the two maps from model identifiers to
    graphics objects, the draft connection, the orientation switch, the
    handlers of the model's notifications and the traversal that
    populates the scene from the model.

    Conventions of the embedding.
    - [unsigned int] identifiers are [N]; no arithmetic is done on them.
    - [std::unordered_map] is [gmap]; [std::unordered_set] is the list
      of its elements in the iteration order of the container:
      [begin()] is the head and [erase] keeps the order of the other
      elements. No result below depends on that order.
    - [std::unique_ptr<T>] is [option T]; [nullptr] is [None].
    - every [std::make_unique] takes a fresh object number from the
      scene's [_allocated] counter, which stands for the identity of the
      heap object.
    - the two [while] loops of the traversal take a fuel argument and
      return [None] when it runs out.
    - Qt's own state (the item list of [QGraphicsScene], repaint
      requests, the mouse grabber), the painter and the undo stack take
      no part in the properties below and are not modelled. *)

From stdpp Require Import gmap sets list.

#[local] Set Warnings "-clear-no-such-hyp".

Module QtNodes.

(** * The program *)

(** ** Identifiers *)

(** Modelled from the spec: [NodeId] and [PortIndex] of Definitions.hpp,
    both [unsigned int], and [PortType] with its two directions. *)

Abbreviation NodeId := N (only parsing).
Abbreviation PortIndex := N (only parsing).

Module PortType.
Inductive t : Set := In | Out.
End PortType.

(** Modelled from the spec: [ConnectionId] of Definitions.hpp, the tuple
    (outNodeId, outPortIndex, inNodeId, inPortIndex); two connection ids
    are equal iff the four fields are. *)
Record ConnectionId : Set := mkConnectionId {
  outNodeId : NodeId;
  outPortIndex : PortIndex;
  inNodeId : NodeId;
  inPortIndex : PortIndex
}.

#[global] Instance ConnectionId_eq_dec : EqDecision ConnectionId.
Proof. solve_decision. Defined.

#[global] Program Instance ConnectionId_countable : Countable ConnectionId :=
  inj_countable'
    (λ c, (outNodeId c, outPortIndex c, inNodeId c, inPortIndex c))
    (λ t, match t with (a, b, c, d) => mkConnectionId a b c d end) _.
Next Obligation. by intros []. Qed.

(** Modelled from the spec: [getNodeId] of ConnectionIdUtils.hpp, the
    node at the given end of a connection. *)
Definition getNodeId (portType : PortType.t) (connectionId : ConnectionId) : NodeId :=
  match portType with
  | PortType.Out => outNodeId connectionId
  | PortType.In => inNodeId connectionId
  end.

(** ** The graph model, as the scene queries it *)

(** Modelled from the spec: the model contract of AbstractGraphModel.hpp,
    reduced to the queries the scene makes: [allNodeIds()],
    [nodeData(nodeId, NodeRole::OutPortCount).toUInt()] and
    [connections(nodeId, portType, index)]. A value of this record is
    the state of the model at one moment. *)
Record AbstractGraphModel : Type := mkGraphModel {
  allNodeIds : list NodeId;
  outPortCount : NodeId → N;
  connections : NodeId → PortType.t → PortIndex → list ConnectionId
}.

(** ** Graphics objects and the scene *)

(** Modelled from the spec: the two classes of graphics objects, of
    which the scene uses the constructor and, for connections, the
    [connectionId()] accessor. [ngo_object] and [cgo_object] number the
    heap object. *)
Record NodeGraphicsObject : Set := mkNodeGraphicsObject {
  ngo_object : nat;
  ngo_nodeId : NodeId
}.

Record ConnectionGraphicsObject : Set := mkConnectionGraphicsObject {
  cgo_object : nat;
  connectionId : ConnectionId
}.

Inductive Orientation : Set := Horizontal | Vertical.

Inductive NodeGeometry : Set :=
  | DefaultHorizontalNodeGeometry
  | DefaultVerticalNodeGeometry.

#[global] Instance Orientation_eq_dec : EqDecision Orientation.
Proof. solve_decision. Defined.

Record BasicGraphicsScene : Type := mkScene {
  _graphModel : AbstractGraphModel;
  _nodeGeometry : NodeGeometry;
  _orientation : Orientation;
  _nodeGraphicsObjects : gmap NodeId NodeGraphicsObject;
  _connectionGraphicsObjects : gmap ConnectionId ConnectionGraphicsObject;
  _draftConnection : option ConnectionGraphicsObject;
  _allocated : nat
}.

(** [_nodeGraphicsObjects[nodeId] = std::make_unique<NodeGraphicsObject>(..)] *)
Definition setNodeGraphicsObject (nodeId : NodeId) (s : BasicGraphicsScene)
  : BasicGraphicsScene :=
  mkScene (_graphModel s) (_nodeGeometry s) (_orientation s)
    (<[nodeId := mkNodeGraphicsObject (_allocated s) nodeId]> (_nodeGraphicsObjects s))
    (_connectionGraphicsObjects s) (_draftConnection s) (S (_allocated s)).

(** [_connectionGraphicsObjects[cid] = std::make_unique<ConnectionGraphicsObject>(..)] *)
Definition setConnectionGraphicsObject (cid : ConnectionId) (s : BasicGraphicsScene)
  : BasicGraphicsScene :=
  mkScene (_graphModel s) (_nodeGeometry s) (_orientation s)
    (_nodeGraphicsObjects s)
    (<[cid := mkConnectionGraphicsObject (_allocated s) cid]> (_connectionGraphicsObjects s))
    (_draftConnection s) (S (_allocated s)).

Definition makeDraftConnection (incompleteConnectionId : ConnectionId)
    (s : BasicGraphicsScene) : BasicGraphicsScene :=
  mkScene (_graphModel s) (_nodeGeometry s) (_orientation s)
    (_nodeGraphicsObjects s) (_connectionGraphicsObjects s)
    (Some (mkConnectionGraphicsObject (_allocated s) incompleteConnectionId))
    (S (_allocated s)).

Definition resetDraftConnection (s : BasicGraphicsScene) : BasicGraphicsScene :=
  mkScene (_graphModel s) (_nodeGeometry s) (_orientation s)
    (_nodeGraphicsObjects s) (_connectionGraphicsObjects s)
    None (_allocated s).

Definition nodeGraphicsObject (nodeId : NodeId) (s : BasicGraphicsScene)
  : option NodeGraphicsObject :=
  match _nodeGraphicsObjects s !! nodeId with
  | Some ngo => Some ngo
  | None => None
  end.

Definition connectionGraphicsObject (cid : ConnectionId) (s : BasicGraphicsScene)
  : option ConnectionGraphicsObject :=
  match _connectionGraphicsObjects s !! cid with
  | Some cgo => Some cgo
  | None => None
  end.

(** ** The traversal *)

(** The local variables of [traverseGraphAndPopulateGraphicsObjects]. *)
Record Locals : Set := mkLocals {
  l_allNodeIds : list NodeId;
  l_fifo : list NodeId;
  l_connectionsToCreate : list ConnectionId
}.

(** [allNodeIds.erase(x)] *)
Definition erase (x : NodeId) (ids : list NodeId) : list NodeId :=
  filter (λ y, y ≠ x) ids.
#[global] Arguments erase : simpl never.

(** The body of [for (auto cn : conns)]. *)
Definition visitConnection (loc : Locals) (cn : ConnectionId) : Locals :=
  mkLocals (erase (inNodeId cn) (l_allNodeIds loc))
           (l_fifo loc ++ [inNodeId cn])
           (l_connectionsToCreate loc ++ [cn]).

(** The indices [0 .. n-1] of [for (PortIndex index = 0; index < n; ++index)]. *)
Definition portIndices (n : N) : list PortIndex :=
  N.of_nat <$> seq 0 (N.to_nat n).

(** The body of the loop over the out ports of [nodeId]. *)
Definition visitPort (m : AbstractGraphModel) (nodeId : NodeId)
    (loc : Locals) (index : PortIndex) : Locals :=
  foldl visitConnection loc (connections m nodeId PortType.Out index).

Definition visitOutPorts (m : AbstractGraphModel) (nodeId : NodeId)
    (loc : Locals) : Locals :=
  foldl (visitPort m nodeId) loc (portIndices (outPortCount m nodeId)).

(** [while (!fifo.empty())]: pop the front, give it a node graphics
    object, push the far end of each of its outgoing connections. *)
Fixpoint drainFifo (fuel : nat) (loc : Locals) (s : BasicGraphicsScene)
  : option (Locals * BasicGraphicsScene) :=
  match l_fifo loc with
  | [] => Some (loc, s)
  | nodeId :: rest =>
    match fuel with
    | O => None
    | S fuel' =>
      drainFifo fuel'
        (visitOutPorts (_graphModel s) nodeId
           (mkLocals (l_allNodeIds loc) rest (l_connectionsToCreate loc)))
        (setNodeGraphicsObject nodeId s)
    end
  end.

(** [while (!allNodeIds.empty())]: start a fresh queue at the first id
    left. *)
Fixpoint traverseGraph (fuel : nat) (loc : Locals) (s : BasicGraphicsScene)
  : option (Locals * BasicGraphicsScene) :=
  match l_allNodeIds loc with
  | [] => Some (loc, s)
  | firstId :: _ =>
    match fuel with
    | O => None
    | S fuel' =>
      match drainFifo fuel'
              (mkLocals (erase firstId (l_allNodeIds loc)) [firstId]
                        (l_connectionsToCreate loc)) s with
      | None => None
      | Some (loc', s') =>
        traverseGraph fuel'
          (mkLocals (l_allNodeIds loc') [] (l_connectionsToCreate loc')) s'
      end
    end
  end.

(** [for (auto const & connectionId : connectionsToCreate)] *)
Definition createConnections (cids : list ConnectionId) (s : BasicGraphicsScene)
  : BasicGraphicsScene :=
  foldl (λ s' cid, setConnectionGraphicsObject cid s') s cids.

Definition traverseGraphAndPopulateGraphicsObjects (fuel : nat)
    (s : BasicGraphicsScene) : option BasicGraphicsScene :=
  match traverseGraph fuel (mkLocals (allNodeIds (_graphModel s)) [] []) s with
  | None => None
  | Some (loc, s') => Some (createConnections (l_connectionsToCreate loc) s')
  end.

(** ** Construction, reset, orientation *)

(** The members as the constructor's initialiser list leaves them. *)
Definition initialScene (graphModel : AbstractGraphModel) : BasicGraphicsScene :=
  mkScene graphModel DefaultHorizontalNodeGeometry Horizontal ∅ ∅ None 0.

Definition BasicGraphicsScene_ctor (fuel : nat) (graphModel : AbstractGraphModel)
  : option BasicGraphicsScene :=
  traverseGraphAndPopulateGraphicsObjects fuel (initialScene graphModel).

Definition onModelReset (fuel : nat) (s : BasicGraphicsScene)
  : option BasicGraphicsScene :=
  traverseGraphAndPopulateGraphicsObjects fuel
    (mkScene (_graphModel s) (_nodeGeometry s) (_orientation s)
       ∅ ∅ (_draftConnection s) (_allocated s)).

Definition setOrientation (fuel : nat) (orientation : Orientation)
    (s : BasicGraphicsScene) : option BasicGraphicsScene :=
  if decide (_orientation s ≠ orientation) then
    onModelReset fuel
      (mkScene (_graphModel s)
         (match orientation with
          | Horizontal => DefaultHorizontalNodeGeometry
          | Vertical => DefaultVerticalNodeGeometry
          end)
         orientation
         (_nodeGraphicsObjects s) (_connectionGraphicsObjects s)
         (_draftConnection s) (_allocated s))
  else Some s.

(** ** Handlers of the model's notifications *)

(** [node->update()] asks Qt for a repaint and leaves the scene's own
    members as they are. *)
Definition updateAttachedNodes (cid : ConnectionId) (portType : PortType.t)
    (s : BasicGraphicsScene) : BasicGraphicsScene :=
  match nodeGraphicsObject (getNodeId portType cid) s with
  | Some _ => s
  | None => s
  end.

Definition onConnectionDeleted (cid : ConnectionId) (s : BasicGraphicsScene)
  : BasicGraphicsScene :=
  let s1 :=
    match _connectionGraphicsObjects s !! cid with
    | Some _ =>
      mkScene (_graphModel s) (_nodeGeometry s) (_orientation s)
        (_nodeGraphicsObjects s) (delete cid (_connectionGraphicsObjects s))
        (_draftConnection s) (_allocated s)
    | None => s
    end in
  let s2 :=
    match _draftConnection s1 with
    | Some draft =>
      if decide (connectionId draft = cid) then resetDraftConnection s1 else s1
    | None => s1
    end in
  updateAttachedNodes cid PortType.In (updateAttachedNodes cid PortType.Out s2).

Definition onConnectionCreated (cid : ConnectionId) (s : BasicGraphicsScene)
  : BasicGraphicsScene :=
  updateAttachedNodes cid PortType.In
    (updateAttachedNodes cid PortType.Out (setConnectionGraphicsObject cid s)).

Definition onNodeDeleted (nodeId : NodeId) (s : BasicGraphicsScene)
  : BasicGraphicsScene :=
  match _nodeGraphicsObjects s !! nodeId with
  | Some _ =>
    mkScene (_graphModel s) (_nodeGeometry s) (_orientation s)
      (delete nodeId (_nodeGraphicsObjects s)) (_connectionGraphicsObjects s)
      (_draftConnection s) (_allocated s)
  | None => s
  end.

Definition onNodeCreated (nodeId : NodeId) (s : BasicGraphicsScene)
  : BasicGraphicsScene :=
  setNodeGraphicsObject nodeId s.

(** [node->setPos(..)], [node->setGeometryChanged()],
    [_nodeGeometry->recomputeSize(nodeId)], [node->update()] and
    [node->moveConnections()] change the Qt side of a visual that
    exists; the members of the scene stay as they are. *)
Definition onNodePositionUpdated (nodeId : NodeId) (s : BasicGraphicsScene)
  : BasicGraphicsScene :=
  match nodeGraphicsObject nodeId s with
  | Some _ => s
  | None => s
  end.

Definition onNodeUpdated (nodeId : NodeId) (s : BasicGraphicsScene)
  : BasicGraphicsScene :=
  match nodeGraphicsObject nodeId s with
  | Some _ => s
  | None => s
  end.

(** ** Delivery of the model's signals *)

(** The seven signals of the model that the constructor connects. *)
Inductive Notification : Set :=
  | ConnectionCreated (cid : ConnectionId)
  | ConnectionDeleted (cid : ConnectionId)
  | NodeCreated (nodeId : NodeId)
  | NodeDeleted (nodeId : NodeId)
  | NodePositionUpdated (nodeId : NodeId)
  | NodeUpdated (nodeId : NodeId)
  | ModelReset.

(** The slot that each [connect] of the constructor binds to a signal. *)
Definition notify (fuel : nat) (note : Notification) (s : BasicGraphicsScene)
  : option BasicGraphicsScene :=
  match note with
  | ConnectionCreated cid => Some (onConnectionCreated cid s)
  | ConnectionDeleted cid => Some (onConnectionDeleted cid s)
  | NodeCreated nodeId => Some (onNodeCreated nodeId s)
  | NodeDeleted nodeId => Some (onNodeDeleted nodeId s)
  | NodePositionUpdated nodeId => Some (onNodePositionUpdated nodeId s)
  | NodeUpdated nodeId => Some (onNodeUpdated nodeId s)
  | ModelReset => onModelReset fuel s
  end.

(** [_graphModel] is a reference: when the model changes, the scene
    sees the new state through it. *)
Definition modelChanged (graphModel : AbstractGraphModel) (s : BasicGraphicsScene)
  : BasicGraphicsScene :=
  mkScene graphModel (_nodeGeometry s) (_orientation s)
    (_nodeGraphicsObjects s) (_connectionGraphicsObjects s)
    (_draftConnection s) (_allocated s).

(** Signals are delivered at once, each in the state the model has when
    it emits it. *)
Fixpoint deliver (fuel : nat) (events : list (AbstractGraphModel * Notification))
    (s : BasicGraphicsScene) : option BasicGraphicsScene :=
  match events with
  | [] => Some s
  | (graphModel, note) :: events' =>
    match notify fuel note (modelChanged graphModel s) with
    | Some s' => deliver fuel events' s'
    | None => None
    end
  end.

(** ** clearScene *)

(** What one call of the model's [deleteNode] does, as far as the scene
    can tell: the signals it emits and the state it leaves the model in.
    [deleteNode] is a virtual function of the model; [clearScene] takes
    it as a parameter. *)
Record DeleteNodeRun : Type := mkDeleteNodeRun {
  emitted : list (AbstractGraphModel * Notification);
  modelAfter : AbstractGraphModel
}.

(** [for (auto nodeId : allNodeIds) graphModel().deleteNode(nodeId);] *)
Fixpoint deleteNodes (fuel : nat)
    (deleteNode : NodeId → AbstractGraphModel → DeleteNodeRun)
    (ids : list NodeId) (s : BasicGraphicsScene) : option BasicGraphicsScene :=
  match ids with
  | [] => Some s
  | nodeId :: ids' =>
    match deliver fuel (emitted (deleteNode nodeId (_graphModel s))) s with
    | Some s' =>
      deleteNodes fuel deleteNode ids'
        (modelChanged (modelAfter (deleteNode nodeId (_graphModel s))) s')
    | None => None
    end
  end.

(** The ids are read once, before the first deletion. *)
Definition clearScene (fuel : nat)
    (deleteNode : NodeId → AbstractGraphModel → DeleteNodeRun)
    (s : BasicGraphicsScene) : option BasicGraphicsScene :=
  deleteNodes fuel deleteNode (allNodeIds (_graphModel s)) s.

(** ** Example models *)

(** A model given by its node ids, the number of out ports of every
    node and its list of connections. *)
Definition graphOf (nodes : list NodeId) (ports : N) (cs : list ConnectionId)
  : AbstractGraphModel :=
  mkGraphModel nodes (λ _, ports)
    (λ nodeId portType index,
       match portType with
       | PortType.Out =>
         filter (λ c, outNodeId c = nodeId ∧ outPortIndex c = index) cs
       | PortType.In =>
         filter (λ c, inNodeId c = nodeId ∧ inPortIndex c = index) cs
       end).

(** Two nodes wired in a loop: 0 -> 1 -> 0. *)
Definition loopModel : AbstractGraphModel :=
  graphOf [0; 1]%N 1 [mkConnectionId 0 0 1 0; mkConnectionId 1 0 0 0].

(** Two outputs of node 0 feed two inputs of node 1, which feeds node 2. *)
Definition doubleWireModel : AbstractGraphModel :=
  graphOf [0; 1; 2]%N 2
    [mkConnectionId 0 0 1 0; mkConnectionId 0 1 1 1; mkConnectionId 1 0 2 0].

(** A chain 0 -> 1 with a separate node 2. *)
Definition chainModel : AbstractGraphModel :=
  graphOf [2; 1; 0]%N 1 [mkConnectionId 0 0 1 0].

(** The chain again, its node ids listed in another order. *)
Definition chainModelReordered : AbstractGraphModel :=
  graphOf [0; 1; 2]%N 1 [mkConnectionId 0 0 1 0].

(** A scene built on the empty model: a draft made and dropped, two
    nodes and a connection announced by the model, a second draft. *)
Definition busyScene : BasicGraphicsScene :=
  makeDraftConnection (mkConnectionId 0 0 1 0)
    (onConnectionCreated (mkConnectionId 0 0 1 0)
       (onNodeCreated 1%N
          (onNodeCreated 0%N
             (resetDraftConnection
                (makeDraftConnection (mkConnectionId 0 0 7 0)
                   (initialScene (graphOf [] 1 []))))))).

(** * Vocabulary of the properties *)

(** ** Ownership of the graphics objects *)

(** The scene [s] holds the connection graphics object numbered [k]:
    one of its [unique_ptr]s points to it. An object that no pointer
    holds any more has been destroyed. *)
Definition holdsConnectionObject (s : BasicGraphicsScene) (k : nat) : Prop :=
  (∃ cid cgo, _connectionGraphicsObjects s !! cid = Some cgo ∧ cgo_object cgo = k) ∨
  (∃ draft, _draftConnection s = Some draft ∧ cgo_object draft = k).

(** What [std::unique_ptr] and the constructors of the graphics objects
    guarantee: every object is filed under the id it was built for, was
    allocated in the past, and has one owner. *)
Record sceneOk (s : BasicGraphicsScene) : Prop := mkSceneOk {
  ok_node : ∀ n o, _nodeGraphicsObjects s !! n = Some o →
    ngo_nodeId o = n ∧ ngo_object o < _allocated s;
  ok_conn : ∀ c o, _connectionGraphicsObjects s !! c = Some o →
    connectionId o = c ∧ cgo_object o < _allocated s;
  ok_draft : ∀ d, _draftConnection s = Some d → cgo_object d < _allocated s;
  ok_node_owner : ∀ n1 n2 o1 o2,
    _nodeGraphicsObjects s !! n1 = Some o1 →
    _nodeGraphicsObjects s !! n2 = Some o2 →
    ngo_object o1 = ngo_object o2 → n1 = n2;
  ok_conn_owner : ∀ c1 c2 o1 o2,
    _connectionGraphicsObjects s !! c1 = Some o1 →
    _connectionGraphicsObjects s !! c2 = Some o2 →
    cgo_object o1 = cgo_object o2 → c1 = c2;
  ok_draft_owner : ∀ c o d,
    _connectionGraphicsObjects s !! c = Some o →
    _draftConnection s = Some d → cgo_object o ≠ cgo_object d;
  ok_kinds : ∀ n c o1 o2,
    _nodeGraphicsObjects s !! n = Some o1 →
    _connectionGraphicsObjects s !! c = Some o2 →
    ngo_object o1 ≠ cgo_object o2
}.

(** ** Vocabulary of the traversal *)

(** All connections leaving [nodeId], in the order the two [for] loops
    meet them. *)
Definition outConnections (m : AbstractGraphModel) (nodeId : NodeId)
  : list ConnectionId :=
  portIndices (outPortCount m nodeId) ≫= connections m nodeId PortType.Out.

(** [P] survives one turn of the inner loop. *)
Definition keptByPop (P : Locals → BasicGraphicsScene → Prop) : Prop :=
  ∀ loc s nodeId rest,
    l_fifo loc = nodeId :: rest → P loc s →
    P (visitOutPorts (_graphModel s) nodeId
         (mkLocals (l_allNodeIds loc) rest (l_connectionsToCreate loc)))
      (setNodeGraphicsObject nodeId s).

(** [P] survives the start of a turn of the outer loop. *)
Definition keptByStart (P : Locals → BasicGraphicsScene → Prop) : Prop :=
  ∀ loc s firstId rest,
    l_allNodeIds loc = firstId :: rest → l_fifo loc = [] → P loc s →
    P (mkLocals (erase firstId (l_allNodeIds loc)) [firstId]
         (l_connectionsToCreate loc)) s.

(** What the traversal leaves alone. *)
Definition sameFrame (s0 : BasicGraphicsScene) (_ : Locals) (s : BasicGraphicsScene)
  : Prop :=
  _graphModel s = _graphModel s0 ∧
  _nodeGeometry s = _nodeGeometry s0 ∧
  _orientation s = _orientation s0 ∧
  _connectionGraphicsObjects s = _connectionGraphicsObjects s0 ∧
  _draftConnection s = _draftConnection s0 ∧
  _allocated s0 ≤ _allocated s.

(** ** Models that are graphs *)

(** Every connection leaving a node of the model ends at a node of the
    model. *)
Definition targetsExist (m : AbstractGraphModel) : Prop :=
  Forall (λ n, Forall (λ c, inNodeId c ∈ allNodeIds m) (outConnections m n))
         (allNodeIds m).

(** [connections(n, Out, i)] answers with connections that leave port
    [i] of node [n]. *)
Definition sourcesMatch (m : AbstractGraphModel) : Prop :=
  Forall (λ n,
    Forall (λ i,
      Forall (λ c, outNodeId c = n ∧ outPortIndex c = i)
             (connections m n PortType.Out i))
      (portIndices (outPortCount m n)))
    (allNodeIds m).

#[global] Instance targetsExist_dec m : Decision (targetsExist m).
Proof. unfold targetsExist. apply _. Defined.

#[global] Instance sourcesMatch_dec m : Decision (sourcesMatch m).
Proof. unfold sourcesMatch. apply _. Defined.

(** Coverage: what the first phase, started on scene [s0] for model [m],
    has reached. *)
Record covers (m : AbstractGraphModel) (s0 : BasicGraphicsScene)
    (loc : Locals) (s : BasicGraphicsScene) : Prop := mkCovers {
  cov_model : _graphModel s = m;
  cov_ids : ∀ n, n ∈ l_allNodeIds loc → n ∈ allNodeIds m;
  cov_fifo : ∀ n, n ∈ l_fifo loc → n ∈ allNodeIds m;
  cov_done : ∀ n, n ∈ allNodeIds m →
    n ∈ l_allNodeIds loc ∨ n ∈ l_fifo loc ∨
    (n ∈ dom (_nodeGraphicsObjects s) ∧
     ∀ c, c ∈ outConnections m n → c ∈ l_connectionsToCreate loc);
  cov_nodes : ∀ n, n ∈ dom (_nodeGraphicsObjects s) →
    n ∈ dom (_nodeGraphicsObjects s0) ∨ n ∈ allNodeIds m;
  cov_old : dom (_nodeGraphicsObjects s0) ⊆ dom (_nodeGraphicsObjects s);
  cov_conns : ∀ c, c ∈ l_connectionsToCreate loc →
    ∃ n, n ∈ allNodeIds m ∧ c ∈ outConnections m n
}.

(** Endpoints: the nodes that a recorded connection touches have their
    visual or are queued. *)
Record endpoints (m : AbstractGraphModel) (s0 : BasicGraphicsScene)
    (loc : Locals) (s : BasicGraphicsScene) : Prop := mkEndpoints {
  ep_covers : covers m s0 loc s;
  ep_out : ∀ c, c ∈ l_connectionsToCreate loc →
    outNodeId c ∈ dom (_nodeGraphicsObjects s);
  ep_in : ∀ c, c ∈ l_connectionsToCreate loc →
    inNodeId c ∈ l_fifo loc ∨ inNodeId c ∈ dom (_nodeGraphicsObjects s)
}.

(** [populated fuel m s']: [s'] is the scene right after a population
    from model [m] that completed within [fuel], run by the constructor
    or by a full reset of a scene bound to [m]. *)
Inductive populated (fuel : nat) (m : AbstractGraphModel)
    (s' : BasicGraphicsScene) : Prop :=
  | populated_ctor :
      BasicGraphicsScene_ctor fuel m = Some s' → populated fuel m s'
  | populated_reset s :
      sceneOk s → _graphModel s = m → onModelReset fuel s = Some s' →
      populated fuel m s'.

(** ** Walks along outgoing connections *)

(** [edge m a b]: some connection leaving [a] ends at [b]. *)
Definition edge (m : AbstractGraphModel) (a b : NodeId) : Prop :=
  ∃ c, c ∈ outConnections m a ∧ inNodeId c = b.

(** [walk m k a]: one can follow [k] connections in a row from [a]. *)
Inductive walk (m : AbstractGraphModel) : nat → NodeId → Prop :=
  | walk_stop a : walk m 0 a
  | walk_step k a b : edge m a b → walk m k b → walk m (S k) a.

(** [a] lies on a directed cycle. *)
Definition onCycle (m : AbstractGraphModel) (a : NodeId) : Prop :=
  tc (edge m) a a.

(** [layeredBy m rank]: every connection goes from a node to a node of
    lower rank. *)
Definition layeredBy (m : AbstractGraphModel) (rank : NodeId → nat) : Prop :=
  Forall (λ a, Forall (λ c, rank (inNodeId c) < rank a) (outConnections m a))
         (allNodeIds m).

#[global] Instance layeredBy_dec m rank : Decision (layeredBy m rank).
Proof. unfold layeredBy. apply _. Defined.

(** [layered m]: the model has no directed cycle; its nodes can be
    ranked so that every connection goes down. *)
Definition layered (m : AbstractGraphModel) : Prop := ∃ rank, layeredBy m rank.

(** The largest number of connections leaving one node. *)
Definition fanOut (m : AbstractGraphModel) : nat :=
  max_list_with (λ n, length (outConnections m n)) (allNodeIds m).

Definition topRank (m : AbstractGraphModel) (rank : NodeId → nat) : nat :=
  max_list_with rank (allNodeIds m).

(** A bound on the number of turns of the inner loop that one queued
    node of rank [r] causes. *)
Fixpoint turns (m : AbstractGraphModel) (r : nat) : nat :=
  match r with
  | O => 1
  | S r' => 1 + fanOut m * turns m r'
  end.

Definition cost (m : AbstractGraphModel) (rank : NodeId → nat)
    (queue : list NodeId) : nat :=
  sum_list_with (λ n, turns m (rank n)) queue.

(** The to-visit set only shrinks while the queue drains. *)
Definition shrinks (m : AbstractGraphModel) (bound : nat) (loc : Locals)
    (s : BasicGraphicsScene)
  : Prop :=
  _graphModel s = m ∧
  length (l_allNodeIds loc) ≤ bound ∧
  ∀ n, n ∈ l_allNodeIds loc → n ∈ allNodeIds m.

(** ** Scenes that can arise *)

(** The scenes that arise from the constructor by the public operations
    and the handlers, while the model changes under the scene. *)
Inductive reachable : BasicGraphicsScene → Prop :=
  | reach_ctor fuel graphModel s :
      BasicGraphicsScene_ctor fuel graphModel = Some s → reachable s
  | reach_modelChanged graphModel s :
      reachable s →
      reachable (mkScene graphModel (_nodeGeometry s) (_orientation s)
                   (_nodeGraphicsObjects s) (_connectionGraphicsObjects s)
                   (_draftConnection s) (_allocated s))
  | reach_makeDraftConnection cid s :
      reachable s → reachable (makeDraftConnection cid s)
  | reach_resetDraftConnection s :
      reachable s → reachable (resetDraftConnection s)
  | reach_setOrientation fuel orientation s s' :
      reachable s → setOrientation fuel orientation s = Some s' → reachable s'
  | reach_onModelReset fuel s s' :
      reachable s → onModelReset fuel s = Some s' → reachable s'
  | reach_onConnectionCreated cid s :
      reachable s → reachable (onConnectionCreated cid s)
  | reach_onConnectionDeleted cid s :
      reachable s → reachable (onConnectionDeleted cid s)
  | reach_onNodeCreated nodeId s :
      reachable s → reachable (onNodeCreated nodeId s)
  | reach_onNodeDeleted nodeId s :
      reachable s → reachable (onNodeDeleted nodeId s).

(** Two scenes bound to the same model whose maps have the same keys. *)
Definition sameKeys (s1 s2 : BasicGraphicsScene) : Prop :=
  _graphModel s1 = _graphModel s2 ∧
  dom (_nodeGraphicsObjects s1) = dom (_nodeGraphicsObjects s2) ∧
  dom (_connectionGraphicsObjects s1) = dom (_connectionGraphicsObjects s2).

Definition agree (r1 r2 : option (Locals * BasicGraphicsScene)) : Prop :=
  match r1, r2 with
  | Some (loc1, s1), Some (loc2, s2) => loc1 = loc2 ∧ sameKeys s1 s2
  | None, None => True
  | _, _ => False
  end.

(** ** Sequences of calls on the draft connection *)

(** A call of one of the two operations on the draft connection. *)
Inductive DraftCall : Set :=
  | MakeDraft (incompleteConnectionId : ConnectionId)
  | ResetDraft.

Definition draftCall (call : DraftCall) (s : BasicGraphicsScene)
  : BasicGraphicsScene :=
  match call with
  | MakeDraft cid => makeDraftConnection cid s
  | ResetDraft => resetDraftConnection s
  end.

Fixpoint draftCalls (calls : list DraftCall) (s : BasicGraphicsScene)
  : BasicGraphicsScene :=
  match calls with
  | [] => s
  | call :: calls' => draftCalls calls' (draftCall call s)
  end.

(** The object numbers of the drafts that the calls construct. *)
Fixpoint draftsMade (calls : list DraftCall) (s : BasicGraphicsScene)
  : list nat :=
  match calls with
  | [] => []
  | MakeDraft cid :: calls' =>
    _allocated s :: draftsMade calls' (makeDraftConnection cid s)
  | ResetDraft :: calls' => draftsMade calls' (resetDraftConnection s)
  end.

(** Every draft there has been: the one of the scene before the calls,
    if any, and those the calls construct. *)
Definition everDraft (calls : list DraftCall) (s : BasicGraphicsScene)
  : list nat :=
  match _draftConnection s with
  | Some draft => cgo_object draft :: draftsMade calls s
  | None => draftsMade calls s
  end.

(** ** Further vocabulary *)

Definition holdsNodeObject (s : BasicGraphicsScene) (k : nat) : Prop :=
  ∃ nodeId ngo, _nodeGraphicsObjects s !! nodeId = Some ngo ∧ ngo_object ngo = k.

(** The geometry that [setOrientation] installs for an orientation. *)
Definition geometryOf (orientation : Orientation) : NodeGeometry :=
  match orientation with
  | Horizontal => DefaultHorizontalNodeGeometry
  | Vertical => DefaultVerticalNodeGeometry
  end.

(** The length of the longest walk of at most [k] connections that
    starts at [n]. *)
Fixpoint longestWalk (m : AbstractGraphModel) (k : nat) (n : NodeId) : nat :=
  match k with
  | O => 0
  | S k' =>
    max_list_with (λ c, S (longestWalk m k' (inNodeId c))) (outConnections m n)
  end.

(** Replaying a signal on a set of node ids and on a set of connection
    ids. *)
Definition nodeKeysAfter (keys : gset NodeId) (note : Notification)
  : gset NodeId :=
  match note with
  | NodeCreated nodeId => {[nodeId]} ∪ keys
  | NodeDeleted nodeId => keys ∖ {[nodeId]}
  | _ => keys
  end.

Definition connectionKeysAfter (keys : gset ConnectionId) (note : Notification)
  : gset ConnectionId :=
  match note with
  | ConnectionCreated cid => {[cid]} ∪ keys
  | ConnectionDeleted cid => keys ∖ {[cid]}
  | _ => keys
  end.

(** The draft connection after a signal: only the deletion of a
    connection with the draft's id ends it. *)
Definition draftAfter (draft : option ConnectionGraphicsObject)
    (note : Notification) : option ConnectionGraphicsObject :=
  match note, draft with
  | ConnectionDeleted cid, Some d =>
    if decide (connectionId d = cid) then None else Some d
  | _, _ => draft
  end.

(** Signals that create nothing and do not reset. *)
Definition createsNothing (note : Notification) : Prop :=
  match note with
  | ConnectionCreated _ | NodeCreated _ | ModelReset => False
  | _ => True
  end.

(** Two states of a model that answer the scene's queries with the same
    elements, possibly in another order. *)
Definition sameAnswers (m1 m2 : AbstractGraphModel) : Prop :=
  (∀ n, n ∈ allNodeIds m1 ↔ n ∈ allNodeIds m2) ∧
  (∀ n, outPortCount m1 n = outPortCount m2 n) ∧
  (∀ n i c, c ∈ connections m1 n PortType.Out i ↔
            c ∈ connections m2 n PortType.Out i).

(** * Lemmas and theorems *)

(** ** Ownership is kept *)

Lemma sceneOk_empty m g o k :
  sceneOk (mkScene m g o ∅ ∅ None k).
Proof. split; cbn; intros; simplify_map_eq. Qed.

Lemma sceneOk_cleared s :
  sceneOk s →
  sceneOk (mkScene (_graphModel s) (_nodeGeometry s) (_orientation s)
             ∅ ∅ (_draftConnection s) (_allocated s)).
Proof. intros [? ? Hd ? ? ? ?]. split; cbn; intros; simplify_map_eq; eauto. Qed.

Lemma setNodeGraphicsObject_ok nodeId s :
  sceneOk s → sceneOk (setNodeGraphicsObject nodeId s).
Proof.
  intros [Hn Hc Hd Hno Hco Hdo Hk]. split; cbn.
  - intros n o. rewrite lookup_insert. case_decide; intros ?; simplify_eq.
    + cbn. split; [done|lia].
    + destruct (Hn n o) as [? ?]; [done|]. split; [done|lia].
  - intros c o Ho. destruct (Hc c o Ho). split; [done|lia].
  - intros d Hd'. specialize (Hd d Hd'). lia.
  - intros n1 n2 o1 o2. rewrite !lookup_insert.
    repeat case_decide; intros ? ? Heq; simplify_eq; cbn in *; try done.
    + destruct (Hn n2 o2) as [_ ?]; [done|]. lia.
    + destruct (Hn n1 o1) as [_ ?]; [done|]. lia.
    + by eapply Hno.
  - done.
  - done.
  - intros n c o1 o2. rewrite lookup_insert. case_decide; intros ? Ho2; simplify_eq.
    + cbn. destruct (Hc c o2 Ho2). lia.
    + by eapply Hk.
Qed.

Lemma setConnectionGraphicsObject_ok cid s :
  sceneOk s → sceneOk (setConnectionGraphicsObject cid s).
Proof.
  intros [Hn Hc Hd Hno Hco Hdo Hk]. split; cbn.
  - intros n o Ho. destruct (Hn n o Ho). split; [done|lia].
  - intros c o. rewrite lookup_insert. case_decide; intros ?; simplify_eq.
    + cbn. split; [done|lia].
    + destruct (Hc c o) as [? ?]; [done|]. split; [done|lia].
  - intros d Hd'. specialize (Hd d Hd'). lia.
  - done.
  - intros c1 c2 o1 o2. rewrite !lookup_insert.
    repeat case_decide; intros ? ? Heq; simplify_eq; cbn in *; try done.
    + destruct (Hc c2 o2) as [_ ?]; [done|]. lia.
    + destruct (Hc c1 o1) as [_ ?]; [done|]. lia.
    + by eapply Hco.
  - intros c o d. rewrite lookup_insert. case_decide; intros ? Hd'; simplify_eq.
    + cbn. specialize (Hd d Hd'). lia.
    + by eapply Hdo.
  - intros n c o1 o2 Ho1. rewrite lookup_insert. case_decide; intros ?; simplify_eq.
    + cbn. destruct (Hn n o1 Ho1). lia.
    + by eapply Hk.
Qed.

Lemma makeDraftConnection_ok cid s :
  sceneOk s → sceneOk (makeDraftConnection cid s).
Proof.
  intros [Hn Hc Hd Hno Hco Hdo Hk]. split; cbn; try done.
  - intros n o Ho. destruct (Hn n o Ho). split; [done|lia].
  - intros c o Ho. destruct (Hc c o Ho). split; [done|lia].
  - intros d ?; simplify_eq. cbn. lia.
  - intros c o d Ho ?; simplify_eq. cbn. destruct (Hc c o Ho). lia.
Qed.

Lemma resetDraftConnection_ok s :
  sceneOk s → sceneOk (resetDraftConnection s).
Proof. intros [Hn Hc Hd Hno Hco Hdo Hk]. split; cbn; done. Qed.

Lemma createConnections_ok cids s :
  sceneOk s → sceneOk (foldl (λ s' cid, setConnectionGraphicsObject cid s') s cids).
Proof.
  revert s. induction cids as [|cid cids IH]; intros s Hs; cbn; [done|].
  by apply IH, setConnectionGraphicsObject_ok.
Qed.

(** ** What one visit does to the local variables *)

Lemma elem_of_portIndices (n i : N) : i ∈ portIndices n ↔ (i < n)%N.
Proof.
  unfold portIndices. rewrite list_elem_of_fmap. split.
  - intros (k & -> & Hk). apply elem_of_seq in Hk. lia.
  - intros Hi. exists (N.to_nat i). split; [lia|]. apply elem_of_seq. lia.
Qed.

Lemma elem_of_outConnections m nodeId c :
  c ∈ outConnections m nodeId ↔
  ∃ i, (i < outPortCount m nodeId)%N ∧ c ∈ connections m nodeId PortType.Out i.
Proof.
  unfold outConnections. rewrite list_elem_of_bind. split.
  - intros (i & Hc & Hi). exists i. by rewrite <- elem_of_portIndices.
  - intros (i & Hi & Hc). exists i. by rewrite elem_of_portIndices.
Qed.

Lemma visitOutPorts_foldl m nodeId loc :
  visitOutPorts m nodeId loc = foldl visitConnection loc (outConnections m nodeId).
Proof.
  unfold visitOutPorts, outConnections.
  generalize (portIndices (outPortCount m nodeId)) as ports.
  intros ports. revert loc.
  induction ports as [|i ports IH]; intros loc; [done|].
  cbn [foldl]. rewrite IH. unfold visitPort.
  change (i :: ports) with ([i] ++ ports).
  rewrite bind_app, foldl_app. cbn. by rewrite app_nil_r.
Qed.

Lemma foldl_visitConnection_fifo loc cs :
  l_fifo (foldl visitConnection loc cs) = l_fifo loc ++ (inNodeId <$> cs).
Proof.
  revert loc. induction cs as [|c cs IH]; intros loc; cbn.
  - by rewrite app_nil_r.
  - rewrite IH. cbn. by rewrite <- app_assoc.
Qed.

Lemma foldl_visitConnection_conns loc cs :
  l_connectionsToCreate (foldl visitConnection loc cs)
  = l_connectionsToCreate loc ++ cs.
Proof.
  revert loc. induction cs as [|c cs IH]; intros loc; cbn.
  - by rewrite app_nil_r.
  - rewrite IH. cbn. by rewrite <- app_assoc.
Qed.

Lemma elem_of_erase x y ids : y ∈ erase x ids ↔ y ≠ x ∧ y ∈ ids.
Proof. unfold erase. by rewrite list_elem_of_filter. Qed.

Lemma erase_length x ids : length (erase x ids) ≤ length ids.
Proof. unfold erase. apply length_filter. Qed.

Lemma foldl_visitConnection_ids loc cs x :
  x ∈ l_allNodeIds (foldl visitConnection loc cs) ↔
  x ∈ l_allNodeIds loc ∧ x ∉ (inNodeId <$> cs).
Proof.
  revert loc. induction cs as [|c cs IH]; intros loc; cbn.
  - split; [|tauto]. intros H. split; [done|]. apply not_elem_of_nil.
  - rewrite IH. cbn. rewrite elem_of_erase, not_elem_of_cons. tauto.
Qed.

Lemma foldl_visitConnection_ids_length loc cs :
  length (l_allNodeIds (foldl visitConnection loc cs)) ≤ length (l_allNodeIds loc).
Proof.
  revert loc. induction cs as [|c cs IH]; intros loc; cbn; [done|].
  etrans; [apply IH|]. cbn. apply erase_length.
Qed.

(** ** Loop invariants *)

Lemma Locals_eta loc :
  l_fifo loc = [] →
  mkLocals (l_allNodeIds loc) [] (l_connectionsToCreate loc) = loc.
Proof. destruct loc; cbn; by intros ->. Qed.

Section Invariance.
Variable P : Locals → BasicGraphicsScene → Prop.

Hypothesis Hpop : keptByPop P.

Lemma drainFifo_invariant fuel loc s loc' s' :
  P loc s → drainFifo fuel loc s = Some (loc', s') →
  P loc' s' ∧ l_fifo loc' = [].
Proof.
  revert loc s. induction fuel as [|fuel IH]; intros loc s HP Hrun.
  - cbn in Hrun. destruct (l_fifo loc) eqn:Hf; [|done].
    by simplify_eq.
  - cbn in Hrun. destruct (l_fifo loc) as [|nodeId rest] eqn:Hf.
    + by simplify_eq.
    + eapply IH; [|exact Hrun]. by apply Hpop.
Qed.

Hypothesis Hstart : keptByStart P.

Lemma traverseGraph_invariant fuel loc s loc' s' :
  l_fifo loc = [] → P loc s →
  traverseGraph fuel loc s = Some (loc', s') →
  P loc' s' ∧ l_allNodeIds loc' = [] ∧ l_fifo loc' = [].
Proof.
  revert loc s. induction fuel as [|fuel IH]; intros loc s Hf HP Hrun.
  - cbn in Hrun. destruct (l_allNodeIds loc) eqn:Hids; [|done].
    by simplify_eq.
  - cbn in Hrun. destruct (l_allNodeIds loc) as [|firstId rest] eqn:Hids.
    + by simplify_eq.
    + destruct (drainFifo fuel _ s) as [[loc1 s1]|] eqn:Hdrain; [|done].
      apply drainFifo_invariant in Hdrain as [HP1 Hf1].
      * rewrite (Locals_eta _ Hf1) in Hrun. by eapply IH.
      * rewrite <- Hids. by eapply Hstart.
Qed.
End Invariance.

(** ** What the traversal leaves alone *)

Lemma sameFrame_pop s0 : keptByPop (sameFrame s0).
Proof.
  intros loc s nodeId rest _ (? & ? & ? & ? & ? & ?).
  repeat split; cbn; try done. lia.
Qed.

Lemma sameFrame_start s0 : keptByStart (sameFrame s0).
Proof. by intros loc s firstId rest _ _ H. Qed.

Lemma traverseGraph_frame fuel loc s loc' s' :
  l_fifo loc = [] → traverseGraph fuel loc s = Some (loc', s') →
  sameFrame s loc' s'.
Proof.
  intros Hf Hrun.
  eapply (traverseGraph_invariant (sameFrame s)) in Hrun as [H _];
    eauto using sameFrame_pop, sameFrame_start.
  repeat split; done.
Qed.

(** ** The second phase *)

Lemma createConnections_snoc cids cid s :
  createConnections (cids ++ [cid]) s
  = setConnectionGraphicsObject cid (createConnections cids s).
Proof. unfold createConnections. by rewrite foldl_snoc. Qed.

Lemma createConnections_frame cids s :
  _graphModel (createConnections cids s) = _graphModel s ∧
  _nodeGeometry (createConnections cids s) = _nodeGeometry s ∧
  _orientation (createConnections cids s) = _orientation s ∧
  _nodeGraphicsObjects (createConnections cids s) = _nodeGraphicsObjects s ∧
  _draftConnection (createConnections cids s) = _draftConnection s ∧
  _allocated (createConnections cids s) = _allocated s + length cids.
Proof.
  induction cids as [|cid cids IH] using rev_ind.
  - cbn. repeat split; lia.
  - rewrite createConnections_snoc, length_app. cbn.
    destruct IH as (-> & -> & -> & -> & -> & ->). repeat split; lia.
Qed.

Lemma createConnections_dom cids s :
  dom (_connectionGraphicsObjects (createConnections cids s))
  = dom (_connectionGraphicsObjects s) ∪ list_to_set cids.
Proof.
  induction cids as [|cid cids IH] using rev_ind.
  - cbn. set_solver.
  - rewrite createConnections_snoc. cbn. rewrite dom_insert_L, IH.
    rewrite list_to_set_app_L. set_solver.
Qed.

(** ** Models that are graphs: elimination *)

Lemma targetsExist_elim m n c :
  targetsExist m → n ∈ allNodeIds m → c ∈ outConnections m n →
  inNodeId c ∈ allNodeIds m.
Proof.
  intros H Hn Hc. unfold targetsExist in H.
  rewrite Forall_forall in H. specialize (H n Hn).
  rewrite Forall_forall in H. by apply H.
Qed.

Lemma sourcesMatch_elim m n c :
  sourcesMatch m → n ∈ allNodeIds m → c ∈ outConnections m n →
  outNodeId c = n.
Proof.
  intros H Hn Hc. unfold sourcesMatch in H.
  apply elem_of_outConnections in Hc as (i & Hi & Hc).
  rewrite Forall_forall in H. specialize (H n Hn).
  rewrite Forall_forall in H. specialize (H i).
  rewrite elem_of_portIndices in H. specialize (H Hi).
  rewrite Forall_forall in H. by apply H.
Qed.

(** ** Coverage: what the first phase has reached *)

Section Coverage.
Variable m : AbstractGraphModel.
Variable s0 : BasicGraphicsScene.
Hypothesis Htargets : targetsExist m.

Lemma covers_pop : keptByPop (covers m s0).
Proof.
  intros loc s nodeId rest Hf [Hm Hids Hfifo Hdone Hnodes Hold Hconns].
  rewrite Hm, visitOutPorts_foldl.
  assert (Hnode : nodeId ∈ allNodeIds m).
  { apply Hfifo. rewrite Hf. apply list_elem_of_here. }
  split.
  - done.
  - intros n Hn. apply foldl_visitConnection_ids in Hn as [Hn _]. by apply Hids.
  - intros n. rewrite foldl_visitConnection_fifo. cbn.
    rewrite elem_of_app, list_elem_of_fmap.
    intros [Hn|(c & -> & Hc)].
    + apply Hfifo. rewrite Hf. by apply list_elem_of_further.
    + by eapply targetsExist_elim.
  - intros n Hn.
    rewrite foldl_visitConnection_ids, foldl_visitConnection_fifo,
      foldl_visitConnection_conns. cbn.
    destruct (decide (n ∈ inNodeId <$> outConnections m nodeId)) as [Hin|Hout].
    { right; left. apply elem_of_app. by right. }
    destruct (Hdone n Hn) as [H|[H|[H1 H2]]].
    + by left.
    + rewrite Hf in H. apply elem_of_cons in H as [->|H].
      * right; right. split.
        -- rewrite dom_insert_L. set_solver.
        -- intros c Hc. apply elem_of_app. by right.
      * right; left. apply elem_of_app. by left.
    + right; right. split.
      * rewrite dom_insert_L. set_solver.
      * intros c Hc. apply elem_of_app. left. by apply H2.
  - cbn. intros n. rewrite dom_insert_L, elem_of_union, elem_of_singleton.
    intros [->|Hn]; [by right|by apply Hnodes].
  - cbn. rewrite dom_insert_L. set_solver.
  - intros c. rewrite foldl_visitConnection_conns. cbn.
    rewrite elem_of_app. intros [Hc|Hc]; [by apply Hconns|by exists nodeId].
Qed.

Lemma covers_start : keptByStart (covers m s0).
Proof.
  intros loc s firstId rest Hall Hf [Hm Hids Hfifo Hdone Hnodes Hold Hconns].
  split; cbn; try done.
  - intros n Hn. apply elem_of_erase in Hn as [_ Hn]. by apply Hids.
  - intros n Hn. apply list_elem_of_singleton in Hn as ->.
    apply Hids. rewrite Hall. apply list_elem_of_here.
  - intros n Hn. rewrite elem_of_erase, list_elem_of_singleton.
    destruct (decide (n = firstId)) as [->|Hne]; [by right; left|].
    destruct (Hdone n Hn) as [H|[H|H]].
    + by left.
    + rewrite Hf in H. by apply elem_of_nil in H.
    + by right; right.
Qed.

Lemma covers_init :
  _graphModel s0 = m → covers m s0 (mkLocals (allNodeIds m) [] []) s0.
Proof.
  intros Hm. split; cbn; try done.
  - intros n Hn. by apply elem_of_nil in Hn.
  - intros n Hn. by left.
  - intros n Hn. by left.
  - intros c Hc. by apply elem_of_nil in Hc.
Qed.

Lemma traverseGraph_covers fuel loc s :
  _graphModel s0 = m →
  traverseGraph fuel (mkLocals (allNodeIds m) [] []) s0 = Some (loc, s) →
  dom (_nodeGraphicsObjects s)
  = dom (_nodeGraphicsObjects s0) ∪ list_to_set (allNodeIds m) ∧
  ∀ c, c ∈ l_connectionsToCreate loc ↔
       ∃ n, n ∈ allNodeIds m ∧ c ∈ outConnections m n.
Proof.
  intros Hm Hrun.
  eapply (traverseGraph_invariant (covers m s0)) in Hrun
    as ([_ _ _ Hdone Hnodes Hold Hconns] & Hids & Hf);
    eauto using covers_pop, covers_start, covers_init.
  assert (Hall : ∀ n, n ∈ allNodeIds m →
    n ∈ dom (_nodeGraphicsObjects s) ∧
    ∀ c, c ∈ outConnections m n → c ∈ l_connectionsToCreate loc).
  { intros n Hn. destruct (Hdone n Hn) as [H|[H|H]]; [| |done].
    - rewrite Hids in H. by apply elem_of_nil in H.
    - rewrite Hf in H. by apply elem_of_nil in H. }
  split.
  - apply set_eq. intros n.
    rewrite elem_of_union, elem_of_list_to_set. split.
    + apply Hnodes.
    + intros [Hn|Hn]; [by apply Hold|by apply Hall].
  - intros c. split; [apply Hconns|].
    intros (n & Hn & Hc). by apply (Hall n Hn).
Qed.
End Coverage.

(** ** Endpoints: the nodes a recorded connection touches *)

Section Endpoints.
Variable m : AbstractGraphModel.
Variable s0 : BasicGraphicsScene.
Hypothesis Htargets : targetsExist m.
Hypothesis Hsources : sourcesMatch m.

Lemma endpoints_pop : keptByPop (endpoints m s0).
Proof.
  intros loc s nodeId rest Hf [Hcov Hout Hin].
  assert (Hnode : nodeId ∈ allNodeIds m).
  { apply (cov_fifo _ _ _ _ Hcov). rewrite Hf. apply list_elem_of_here. }
  split.
  - by apply covers_pop.
  - rewrite (cov_model _ _ _ _ Hcov), visitOutPorts_foldl.
    intros c. rewrite foldl_visitConnection_conns. cbn.
    rewrite dom_insert_L, elem_of_app. intros [Hc|Hc].
    + specialize (Hout c Hc). set_solver.
    + rewrite (sourcesMatch_elim m nodeId c); [set_solver|done..].
  - rewrite (cov_model _ _ _ _ Hcov), visitOutPorts_foldl.
    intros c. rewrite foldl_visitConnection_conns, foldl_visitConnection_fifo.
    cbn. rewrite dom_insert_L, !elem_of_app. intros [Hc|Hc].
    + destruct (Hin c Hc) as [H|H].
      * rewrite Hf in H. apply elem_of_cons in H as [->|H].
        -- right. set_solver.
        -- left. by left.
      * right. set_solver.
    + left. right. by apply list_elem_of_fmap_2.
Qed.

Lemma endpoints_start : keptByStart (endpoints m s0).
Proof.
  intros loc s firstId rest Hall Hf [Hcov Hout Hin]. split; cbn.
  - by eapply covers_start.
  - done.
  - intros c Hc. destruct (Hin c Hc) as [H|H]; [|by right].
    rewrite Hf in H. by apply elem_of_nil in H.
Qed.

Lemma traverseGraph_endpoints fuel loc s :
  _graphModel s0 = m →
  traverseGraph fuel (mkLocals (allNodeIds m) [] []) s0 = Some (loc, s) →
  ∀ c, c ∈ l_connectionsToCreate loc →
    outNodeId c ∈ dom (_nodeGraphicsObjects s) ∧
    inNodeId c ∈ dom (_nodeGraphicsObjects s).
Proof.
  intros Hm Hrun.
  eapply (traverseGraph_invariant (endpoints m s0)) in Hrun
    as ([_ Hout Hin] & _ & Hf); eauto using endpoints_pop, endpoints_start.
  - intros c Hc. split; [by apply Hout|].
    destruct (Hin c Hc) as [H|H]; [|done].
    rewrite Hf in H. by apply elem_of_nil in H.
  - split; cbn.
    + by apply covers_init.
    + intros c Hc. by apply elem_of_nil in Hc.
    + intros c Hc. by apply elem_of_nil in Hc.
Qed.
End Endpoints.

(** ** The population as a whole *)

Lemma populate_inv fuel s s' :
  traverseGraphAndPopulateGraphicsObjects fuel s = Some s' →
  ∃ loc s1,
    traverseGraph fuel (mkLocals (allNodeIds (_graphModel s)) [] []) s
      = Some (loc, s1) ∧
    s' = createConnections (l_connectionsToCreate loc) s1.
Proof.
  unfold traverseGraphAndPopulateGraphicsObjects.
  destruct (traverseGraph _ _ _) as [[loc s1]|]; [|done].
  intros ?; simplify_eq. by exists loc, s1.
Qed.

Lemma populate_frame fuel s s' :
  traverseGraphAndPopulateGraphicsObjects fuel s = Some s' →
  _graphModel s' = _graphModel s ∧
  _nodeGeometry s' = _nodeGeometry s ∧
  _orientation s' = _orientation s ∧
  _draftConnection s' = _draftConnection s.
Proof.
  intros (loc & s1 & Hrun & ->)%populate_inv.
  apply traverseGraph_frame in Hrun as (? & ? & ? & ? & ? & ?); [|done].
  destruct (createConnections_frame (l_connectionsToCreate loc) s1)
    as (-> & -> & -> & _ & -> & _).
  done.
Qed.

Lemma sceneOk_pop : keptByPop (λ _ s, sceneOk s).
Proof. intros loc s nodeId rest _ Hs. by apply setNodeGraphicsObject_ok. Qed.

Lemma populate_ok fuel s s' :
  sceneOk s →
  traverseGraphAndPopulateGraphicsObjects fuel s = Some s' → sceneOk s'.
Proof.
  intros Hs (loc & s1 & Hrun & ->)%populate_inv.
  apply createConnections_ok.
  eapply (traverseGraph_invariant (λ _ s, sceneOk s)) in Hrun as [H _];
    eauto using sceneOk_pop.
  by intros ? ? ? ? _ _ ?.
Qed.

Lemma populate_keys fuel s s' :
  targetsExist (_graphModel s) →
  traverseGraphAndPopulateGraphicsObjects fuel s = Some s' →
  dom (_nodeGraphicsObjects s')
  = dom (_nodeGraphicsObjects s) ∪ list_to_set (allNodeIds (_graphModel s)) ∧
  ∀ c, c ∈ dom (_connectionGraphicsObjects s') ↔
       c ∈ dom (_connectionGraphicsObjects s) ∨
       ∃ n, n ∈ allNodeIds (_graphModel s) ∧ c ∈ outConnections (_graphModel s) n.
Proof.
  intros Ht (loc & s1 & Hrun & ->)%populate_inv.
  assert (Hconns : _connectionGraphicsObjects s1 = _connectionGraphicsObjects s).
  { eapply traverseGraph_frame in Hrun; [|done]. apply Hrun. }
  apply (traverseGraph_covers _ s Ht) in Hrun as [Hnodes Hrec]; [|done].
  destruct (createConnections_frame (l_connectionsToCreate loc) s1)
    as (_ & _ & _ & -> & _ & _).
  split; [done|].
  intros c. rewrite createConnections_dom, Hconns, elem_of_union,
    elem_of_list_to_set, Hrec. done.
Qed.

Lemma populated_inv fuel m s' :
  populated fuel m s' →
  ∃ s, sceneOk s ∧ _graphModel s = m ∧
       _nodeGraphicsObjects s = ∅ ∧ _connectionGraphicsObjects s = ∅ ∧
       traverseGraphAndPopulateGraphicsObjects fuel s = Some s'.
Proof.
  intros [H|s Hs Hm H].
  - eexists. split; [apply sceneOk_empty|]. by repeat split.
  - eexists. split; [by apply sceneOk_cleared|]. by repeat split.
Qed.

(** ** Walks along outgoing connections *)

Lemma walk_through m a b :
  tc (edge m) a b → ∀ k, walk m k b → ∃ k', k < k' ∧ walk m k' a.
Proof.
  induction 1 as [a b He|a b c He _ IH]; intros k Hk.
  - exists (S k). split; [lia|]. by eapply walk_step.
  - destruct (IH k Hk) as (k' & Hlt & Hk'). exists (S k').
    split; [lia|]. by eapply walk_step.
Qed.

Lemma onCycle_walks m a : onCycle m a → ∀ j, ∃ k, j ≤ k ∧ walk m k a.
Proof.
  intros Hcyc j. induction j as [|j (k & Hle & Hk)].
  - exists 0. split; [done|]. apply walk_stop.
  - destruct (walk_through m a a Hcyc k Hk) as (k' & Hlt & Hk').
    exists k'. split; [lia|done].
Qed.

Lemma drainFifo_model fuel loc s loc' s' :
  drainFifo fuel loc s = Some (loc', s') → _graphModel s' = _graphModel s.
Proof.
  intros Hrun.
  eapply (drainFifo_invariant (sameFrame s)) in Hrun as [H _];
    eauto using sameFrame_pop.
  - apply H.
  - repeat split; done.
Qed.

(** A queue that drains within [fuel] turns holds no node from which a
    walk of [fuel] connections starts: every node of such a walk is
    pushed and popped in its turn. *)
Lemma drainFifo_bounds_walks fuel loc s r :
  drainFifo fuel loc s = Some r →
  ∀ n k, n ∈ l_fifo loc → walk (_graphModel s) k n → k < fuel.
Proof.
  revert loc s. induction fuel as [|fuel IH]; intros loc s Hrun n k Hn Hw.
  - cbn in Hrun. destruct (l_fifo loc); [|done]. by apply elem_of_nil in Hn.
  - cbn in Hrun. destruct (l_fifo loc) as [|h rest] eqn:Hf.
    { by apply elem_of_nil in Hn. }
    specialize (IH _ _ Hrun). cbn in IH.
    rewrite visitOutPorts_foldl in IH.
    setoid_rewrite foldl_visitConnection_fifo in IH. cbn in IH.
    apply elem_of_cons in Hn as [->|Hn].
    + inversion Hw as [|k' a b (c & Hc & Hb) Hw']; subst; [lia|].
      enough (k' < fuel) by lia. apply (IH (inNodeId c)); [|done].
      apply elem_of_app. right. by apply list_elem_of_fmap_2.
    + enough (k < fuel) by lia. apply (IH n); [|done].
      apply elem_of_app. by left.
Qed.

(** A node that leaves the to-visit set while the queue drains has been
    pushed on the queue. *)
Lemma drainFifo_ids fuel loc s loc' s' :
  drainFifo fuel loc s = Some (loc', s') →
  ∀ n, n ∈ l_allNodeIds loc →
    n ∈ l_allNodeIds loc' ∨ ∀ k, walk (_graphModel s) k n → k < fuel.
Proof.
  revert loc s. induction fuel as [|fuel IH]; intros loc s Hrun n Hn.
  - cbn in Hrun. destruct (l_fifo loc); [|done]. simplify_eq. by left.
  - cbn in Hrun. destruct (l_fifo loc) as [|h rest] eqn:Hf.
    { simplify_eq. by left. }
    destruct (decide (n ∈ inNodeId <$> outConnections (_graphModel s) h))
      as [Hin|Hout].
    + right. intros k Hk. enough (k < fuel) by lia.
      eapply (drainFifo_bounds_walks _ _ _ _ Hrun n k); [|done].
      rewrite visitOutPorts_foldl, foldl_visitConnection_fifo. cbn.
      apply elem_of_app. by right.
    + destruct (IH _ _ Hrun n) as [H|H].
      * rewrite visitOutPorts_foldl. by apply foldl_visitConnection_ids.
      * by left.
      * right. intros k Hk. specialize (H k Hk). lia.
Qed.

Lemma traverseGraph_bounds_walks fuel loc s r :
  traverseGraph fuel loc s = Some r →
  ∀ n k, n ∈ l_allNodeIds loc → walk (_graphModel s) k n → k < fuel.
Proof.
  revert loc s. induction fuel as [|fuel IH]; intros loc s Hrun n k Hn Hw.
  - cbn in Hrun. destruct (l_allNodeIds loc); [|done].
    by apply elem_of_nil in Hn.
  - cbn in Hrun. destruct (l_allNodeIds loc) as [|firstId rest] eqn:Hids.
    { by apply elem_of_nil in Hn. }
    destruct (drainFifo fuel _ s) as [[loc1 s1]|] eqn:Hdrain; [|done].
    enough (k < fuel) by lia.
    destruct (decide (n = firstId)) as [->|Hne].
    + eapply (drainFifo_bounds_walks _ _ _ _ Hdrain firstId k); [|done].
      cbn. apply list_elem_of_here.
    + destruct (drainFifo_ids _ _ _ _ _ Hdrain n) as [H|H].
      * cbn. by apply elem_of_erase.
      * apply (IH _ _ Hrun n k); [done|].
        by rewrite (drainFifo_model _ _ _ _ _ Hdrain).
      * by apply H.
Qed.

(** On a model with a cycle through one of its nodes the population
    does not complete, whatever the fuel. *)
Lemma populate_cycle_diverges fuel s a :
  a ∈ allNodeIds (_graphModel s) → onCycle (_graphModel s) a →
  traverseGraphAndPopulateGraphicsObjects fuel s = None.
Proof.
  intros Ha Hcyc.
  destruct (traverseGraphAndPopulateGraphicsObjects fuel s) as [s'|] eqn:Hrun;
    [|done].
  apply populate_inv in Hrun as (loc & s1 & Hrun & _).
  destruct (onCycle_walks _ a Hcyc fuel) as (k & Hle & Hk).
  pose proof (traverseGraph_bounds_walks _ _ _ _ Hrun a k Ha Hk). lia.
Qed.

(** ** Termination on models without cycles *)

Lemma layeredBy_elim m rank a c :
  layeredBy m rank → a ∈ allNodeIds m → c ∈ outConnections m a →
  rank (inNodeId c) < rank a.
Proof.
  intros H Ha Hc. unfold layeredBy in H.
  rewrite Forall_forall in H. specialize (H a Ha).
  rewrite Forall_forall in H. by apply H.
Qed.

Lemma max_list_with_ge {A} (f : A → nat) (l : list A) x :
  x ∈ l → f x ≤ max_list_with f l.
Proof. induction 1; cbn; lia. Qed.

Section Termination.
Variable m : AbstractGraphModel.
Variable rank : NodeId → nat.
Hypothesis Htargets : targetsExist m.
Hypothesis Hrank :
  ∀ a c, a ∈ allNodeIds m → c ∈ outConnections m a →
         rank (inNodeId c) < rank a.

Lemma turns_pos r : 0 < turns m r.
Proof. destruct r; cbn; lia. Qed.

Lemma turns_mono_1 r : turns m r ≤ turns m (S r).
Proof.
  induction r as [|r IH]; cbn [turns] in *; [lia|].
  apply le_n_S, Nat.mul_le_mono_l, IH.
Qed.

Lemma turns_le r r' : r ≤ r' → turns m r ≤ turns m r'.
Proof.
  induction 1 as [|r' _ IH]; [done|].
  etrans; [exact IH|apply turns_mono_1].
Qed.

Lemma cost_bound r (cs : list ConnectionId) :
  (∀ c, c ∈ cs → rank (inNodeId c) ≤ r) →
  cost m rank (inNodeId <$> cs) ≤ length cs * turns m r.
Proof.
  induction cs as [|c cs IH]; intros H; cbn; [done|].
  assert (turns m (rank (inNodeId c)) ≤ turns m r).
  { apply turns_le, H, list_elem_of_here. }
  assert (cost m rank (inNodeId <$> cs) ≤ length cs * turns m r).
  { apply IH. intros c' Hc'. apply H. by apply list_elem_of_further. }
  unfold cost in *. lia.
Qed.

Lemma cost_targets n :
  n ∈ allNodeIds m →
  cost m rank (inNodeId <$> outConnections m n) + 1 ≤ turns m (rank n).
Proof.
  intros Hn.
  assert (Hfan : length (outConnections m n) ≤ fanOut m).
  { unfold fanOut.
    apply (max_list_with_ge (λ n, length (outConnections m n))), Hn. }
  destruct (outConnections m n) as [|c0 cs0] eqn:Hcs.
  { cbn. pose proof (turns_pos (rank n)). lia. }
  destruct (rank n) as [|r] eqn:Hr.
  { specialize (Hrank n c0 Hn). rewrite Hcs in Hrank.
    specialize (Hrank (list_elem_of_here _ _)). lia. }
  rewrite <- Hcs in *.
  assert (cost m rank (inNodeId <$> outConnections m n)
          ≤ length (outConnections m n) * turns m r) as Hc.
  { apply cost_bound. intros c Hc. specialize (Hrank n c Hn Hc). lia. }
  cbn. pose proof (turns_pos r). nia.
Qed.

Lemma drainFifo_terminates fuel loc s :
  _graphModel s = m →
  (∀ n, n ∈ l_fifo loc → n ∈ allNodeIds m) →
  cost m rank (l_fifo loc) ≤ fuel →
  is_Some (drainFifo fuel loc s).
Proof.
  revert loc s. induction fuel as [|fuel IH]; intros loc s Hm Hin Hcost.
  - cbn. destruct (l_fifo loc) as [|h rest]; [done|].
    cbn in Hcost. pose proof (turns_pos (rank h)). lia.
  - cbn. destruct (l_fifo loc) as [|h rest] eqn:Hf; [done|].
    assert (Hh : h ∈ allNodeIds m) by (apply Hin, list_elem_of_here).
    apply IH; [done| |].
    + intros n. rewrite Hm, visitOutPorts_foldl, foldl_visitConnection_fifo.
      cbn. rewrite elem_of_app, list_elem_of_fmap.
      intros [Hn|(c & -> & Hc)].
      * by apply Hin, list_elem_of_further.
      * by eapply targetsExist_elim.
    + rewrite Hm, visitOutPorts_foldl, foldl_visitConnection_fifo. cbn.
      unfold cost in *. rewrite sum_list_with_app.
      pose proof (cost_targets h Hh) as Ht. unfold cost in Ht.
      cbn in Hcost. lia.
Qed.

Lemma shrinks_pop bound : keptByPop (shrinks m bound).
Proof.
  intros loc s nodeId rest _ (Hm & Hlen & Hin).
  rewrite visitOutPorts_foldl. split; [done|]. split.
  - etrans; [apply foldl_visitConnection_ids_length|done].
  - intros n Hn. apply foldl_visitConnection_ids in Hn as [Hn _].
    by apply Hin.
Qed.

Lemma traverseGraph_terminates fuel loc s :
  _graphModel s = m →
  (∀ n, n ∈ l_allNodeIds loc → n ∈ allNodeIds m) →
  length (l_allNodeIds loc) + turns m (topRank m rank) ≤ fuel →
  is_Some (traverseGraph fuel loc s).
Proof.
  revert loc s. induction fuel as [|fuel IH]; intros loc s Hm Hin Hfuel.
  - pose proof (turns_pos (topRank m rank)). lia.
  - cbn. destruct (l_allNodeIds loc) as [|firstId rest] eqn:Hids; [done|].
    assert (Hfirst : firstId ∈ allNodeIds m) by (apply Hin, list_elem_of_here).
    cbn in Hfuel.
    destruct (drainFifo fuel
                (mkLocals (erase firstId (firstId :: rest)) [firstId]
                   (l_connectionsToCreate loc)) s)
      as [[loc1 s1]|] eqn:Hdrain.
    + eapply (drainFifo_invariant (shrinks m (length rest))) in Hdrain
        as [(Hm1 & Hlen1 & Hin1) _]; eauto using shrinks_pop.
      * apply IH; cbn; [done..|lia].
      * split; [done|]. split; cbn.
        -- unfold erase. cbn. case_decide; [done|]. apply length_filter.
        -- intros n Hn. apply elem_of_erase in Hn as [_ Hn]. by apply Hin.
    + exfalso.
      destruct (drainFifo_terminates fuel
                  (mkLocals (erase firstId (firstId :: rest)) [firstId]
                     (l_connectionsToCreate loc)) s) as [r Hr];
        [done| | |congruence].
      * cbn. intros n Hn. by apply list_elem_of_singleton in Hn as ->.
      * cbn. assert (turns m (rank firstId) ≤ turns m (topRank m rank)).
        { apply turns_le. unfold topRank. by apply max_list_with_ge. }
        lia.
Qed.
End Termination.

(** On a layered model whose connections end at its own nodes the
    population completes, from every scene bound to the model. *)
Lemma populate_terminates m :
  targetsExist m → layered m →
  ∃ fuel, ∀ s, _graphModel s = m →
    is_Some (traverseGraphAndPopulateGraphicsObjects fuel s).
Proof.
  intros Ht (rank & Hrank).
  exists (length (allNodeIds m) + turns m (topRank m rank)).
  intros s Hm. unfold traverseGraphAndPopulateGraphicsObjects.
  destruct (traverseGraph_terminates m rank Ht
              (λ a c, layeredBy_elim m rank a c Hrank)
              (length (allNodeIds m) + turns m (topRank m rank))
              (mkLocals (allNodeIds m) [] []) s) as [[loc s1] Hrun];
    [done..|].
  rewrite Hm, Hrun. done.
Qed.

Lemma populated_completes m :
  targetsExist m → layered m → ∃ fuel s', populated fuel m s'.
Proof.
  intros Ht Hl. destruct (populate_terminates m Ht Hl) as (fuel & H).
  destruct (H (initialScene m) eq_refl) as [s' Hs'].
  exists fuel, s'. by apply populated_ctor.
Qed.

(** ** Scenes that can arise *)

Lemma onModelReset_ok fuel s s' :
  sceneOk s → onModelReset fuel s = Some s' → sceneOk s'.
Proof. intros Hs. apply populate_ok. by apply sceneOk_cleared. Qed.

Lemma setOrientation_ok fuel orientation s s' :
  sceneOk s → setOrientation fuel orientation s = Some s' → sceneOk s'.
Proof.
  intros Hs. unfold setOrientation. case_decide; [|by intros ?; simplify_eq].
  apply onModelReset_ok. by destruct Hs.
Qed.

Lemma updateAttachedNodes_id cid portType s :
  updateAttachedNodes cid portType s = s.
Proof. unfold updateAttachedNodes. by destruct (nodeGraphicsObject _ s). Qed.

Lemma onConnectionCreated_ok cid s :
  sceneOk s → sceneOk (onConnectionCreated cid s).
Proof.
  intros Hs. unfold onConnectionCreated. rewrite !updateAttachedNodes_id.
  by apply setConnectionGraphicsObject_ok.
Qed.

Lemma onConnectionDeleted_ok cid s :
  sceneOk s → sceneOk (onConnectionDeleted cid s).
Proof.
  intros Hs. unfold onConnectionDeleted. cbv zeta.
  rewrite !updateAttachedNodes_id.
  assert (Hs1 : sceneOk
    match _connectionGraphicsObjects s !! cid with
    | Some _ =>
      mkScene (_graphModel s) (_nodeGeometry s) (_orientation s)
        (_nodeGraphicsObjects s) (delete cid (_connectionGraphicsObjects s))
        (_draftConnection s) (_allocated s)
    | None => s
    end).
  { destruct (_connectionGraphicsObjects s !! cid) as [found|]; [|done].
    destruct Hs as [Hn Hc Hd Hno Hco Hdo Hk]. split; cbn; try done.
    - intros c o [_ Ho]%lookup_delete_Some. by apply Hc.
    - intros c1 c2 o1 o2 [_ H1]%lookup_delete_Some [_ H2]%lookup_delete_Some.
      by eapply Hco.
    - intros c o d [_ Ho]%lookup_delete_Some. by eapply Hdo.
    - intros n c o1 o2 H1 [_ H2]%lookup_delete_Some. by eapply Hk. }
  revert Hs1. generalize (match _connectionGraphicsObjects s !! cid with
    | Some _ =>
      mkScene (_graphModel s) (_nodeGeometry s) (_orientation s)
        (_nodeGraphicsObjects s) (delete cid (_connectionGraphicsObjects s))
        (_draftConnection s) (_allocated s)
    | None => s
    end) as s1.
  intros s1 Hs1. destruct (_draftConnection s1) as [draft|]; [|done].
  case_decide; [|done]. by apply resetDraftConnection_ok.
Qed.

Lemma onNodeDeleted_ok nodeId s : sceneOk s → sceneOk (onNodeDeleted nodeId s).
Proof.
  intros Hs. unfold onNodeDeleted.
  destruct (_nodeGraphicsObjects s !! nodeId) as [found|]; [|done].
  destruct Hs as [Hn Hc Hd Hno Hco Hdo Hk]. split; cbn; try done.
  - intros n o [_ Ho]%lookup_delete_Some. by apply Hn.
  - intros n1 n2 o1 o2 [_ H1]%lookup_delete_Some [_ H2]%lookup_delete_Some.
    by eapply Hno.
  - intros n c o1 o2 [_ H1]%lookup_delete_Some H2. by eapply Hk.
Qed.

Lemma reachable_ok s : reachable s → sceneOk s.
Proof.
  induction 1 as [fuel m s H|m s _ IH|cid s _ IH|s _ IH|fuel o s s' _ IH H
                 |fuel s s' _ IH H|cid s _ IH|cid s _ IH|n s _ IH|n s _ IH].
  - eapply populate_ok; [|exact H]. apply sceneOk_empty.
  - by destruct IH.
  - by apply makeDraftConnection_ok.
  - by apply resetDraftConnection_ok.
  - by eapply setOrientation_ok.
  - by eapply onModelReset_ok.
  - by apply onConnectionCreated_ok.
  - by apply onConnectionDeleted_ok.
  - by apply setNodeGraphicsObject_ok.
  - by apply onNodeDeleted_ok.
Qed.

(** ** Properties of the population *)

(** C2 (node coverage). After a population from model [m] has
    completed, by the constructor or by a full reset, the keys of the
    node-visual map are exactly the node ids of [m]: a lookup finds a
    visual for a node id iff the id is in [allNodeIds()], and the visual
    found is the one built for that id. The model is a graph: its
    connections end at its own nodes. When it has no cycle, a population
    that completes exists. *)
Theorem node_coverage m :
  targetsExist m →
  (layered m → ∃ fuel s', populated fuel m s') ∧
  ∀ fuel s', populated fuel m s' →
    dom (_nodeGraphicsObjects s') = list_to_set (allNodeIds m) ∧
    (∀ n, is_Some (nodeGraphicsObject n s') ↔ n ∈ allNodeIds m) ∧
    (∀ n ngo, nodeGraphicsObject n s' = Some ngo → ngo_nodeId ngo = n).
Proof.
  intros Ht. split; [by apply populated_completes|].
  intros fuel s' (s & Hs & <- & Hnodes & _ & Hrun)%populated_inv.
  pose proof (populate_ok _ _ _ Hs Hrun) as Hs'.
  apply populate_keys in Hrun as [Hdom _]; [|done].
  rewrite Hnodes, dom_empty_L, (left_id_L ∅ (∪)) in Hdom.
  split; [done|]. split.
  - intros n. unfold nodeGraphicsObject.
    rewrite <- (elem_of_list_to_set (C := gset N)), <- Hdom, elem_of_dom.
    destruct (_nodeGraphicsObjects s' !! n); split; intros [? ?]; by eauto.
  - intros n ngo. unfold nodeGraphicsObject.
    destruct (_nodeGraphicsObjects s' !! n) as [o|] eqn:Ho; [|done].
    intros ?; simplify_eq. by apply (ok_node _ Hs').
Qed.

Lemma node_coverage_witness :
  ∃ fuel s', populated fuel chainModel s' ∧
    dom (_nodeGraphicsObjects s') = list_to_set (allNodeIds chainModel).
Proof.
  destruct (node_coverage chainModel) as [Hex Hall].
  - apply (bool_decide_unpack _). vm_compute. exact I.
  - destruct Hex as (fuel & s' & Hp).
    + exists (λ n, if decide (n = 0%N) then 1 else 0).
      apply (bool_decide_unpack _). vm_compute. exact I.
    + exists fuel, s'. split; [exact Hp|]. apply (Hall fuel s' Hp).
Defined.

(** C3 (connection coverage). After a population from model [m] has
    completed, the keys of the connection-visual map are exactly the
    connection ids that [connections(n, Out, i)] returns for a node [n]
    of the model and one of its out ports [i]; the draft connection is
    none of the objects in the map. When the model has no cycle, a
    population that completes exists. *)
Theorem connection_coverage m :
  targetsExist m →
  (layered m → ∃ fuel s', populated fuel m s') ∧
  ∀ fuel s', populated fuel m s' →
    (∀ cid, is_Some (connectionGraphicsObject cid s') ↔
       ∃ n i, n ∈ allNodeIds m ∧ (i < outPortCount m n)%N ∧
              cid ∈ connections m n PortType.Out i) ∧
    (∀ draft, _draftConnection s' = Some draft →
       ∀ cid cgo, connectionGraphicsObject cid s' = Some cgo →
         cgo_object cgo ≠ cgo_object draft).
Proof.
  intros Ht. split; [by apply populated_completes|].
  intros fuel s' (s & Hs & <- & _ & Hconns & Hrun)%populated_inv.
  pose proof (populate_ok _ _ _ Hs Hrun) as Hs'.
  apply populate_keys in Hrun as [_ Hdom]; [|done].
  split.
  - intros cid.
    assert (is_Some (connectionGraphicsObject cid s')
            ↔ cid ∈ dom (_connectionGraphicsObjects s')) as ->.
    { rewrite elem_of_dom. unfold connectionGraphicsObject.
      destruct (_connectionGraphicsObjects s' !! cid);
        split; intros [? ?]; by eauto. }
    rewrite Hdom, Hconns, dom_empty_L. split.
    + intros [H|(n & Hn & Hc)]; [set_solver|].
      apply elem_of_outConnections in Hc as (i & Hi & Hc). by exists n, i.
    + intros (n & i & Hn & Hi & Hc). right. exists n. split; [done|].
      apply elem_of_outConnections. by exists i.
  - intros draft Hd cid cgo. unfold connectionGraphicsObject.
    destruct (_connectionGraphicsObjects s' !! cid) as [o|] eqn:Ho; [|done].
    intros ?; simplify_eq. by eapply (ok_draft_owner _ Hs').
Qed.

Lemma connection_coverage_witness :
  ∃ fuel s', populated fuel chainModel s' ∧
    (is_Some (connectionGraphicsObject (mkConnectionId 0 0 1 0) s') ↔
     ∃ n i, n ∈ allNodeIds chainModel ∧ (i < outPortCount chainModel n)%N ∧
            mkConnectionId 0 0 1 0 ∈ connections chainModel n PortType.Out i).
Proof.
  destruct (connection_coverage chainModel) as [Hex Hall].
  - apply (bool_decide_unpack _). vm_compute. exact I.
  - destruct Hex as (fuel & s' & Hp).
    + exists (λ n, if decide (n = 0%N) then 1 else 0).
      apply (bool_decide_unpack _). vm_compute. exact I.
    + exists fuel, s'. split; [exact Hp|]. apply (Hall fuel s' Hp).
Defined.

(** C9 (nodes before connections). The population runs in two phases:
    the traversal creates node visuals and no connection visual; only
    when it has completed are the connection visuals created, one
    recorded id after the other, and no node visual is created any
    more. At the moment the visual of a recorded connection is created
    both its endpoint nodes have their visuals. *)
Theorem nodes_before_connections fuel s s' :
  targetsExist (_graphModel s) → sourcesMatch (_graphModel s) →
  traverseGraphAndPopulateGraphicsObjects fuel s = Some s' →
  ∃ loc s1,
    traverseGraph fuel (mkLocals (allNodeIds (_graphModel s)) [] []) s
      = Some (loc, s1) ∧
    _connectionGraphicsObjects s1 = _connectionGraphicsObjects s ∧
    s' = createConnections (l_connectionsToCreate loc) s1 ∧
    ∀ created cid rest,
      l_connectionsToCreate loc = created ++ cid :: rest →
      _nodeGraphicsObjects (createConnections created s1)
        = _nodeGraphicsObjects s1 ∧
      is_Some (nodeGraphicsObject (outNodeId cid) (createConnections created s1)) ∧
      is_Some (nodeGraphicsObject (inNodeId cid) (createConnections created s1)).
Proof.
  intros Ht Hsrc (loc & s1 & Hrun & ->)%populate_inv.
  exists loc, s1. split; [done|]. split.
  { eapply traverseGraph_frame in Hrun; [|done]. apply Hrun. }
  split; [done|].
  intros created cid rest Hsplit.
  destruct (createConnections_frame created s1) as (_ & _ & _ & Hn & _ & _).
  split; [done|].
  destruct (traverseGraph_endpoints _ s Ht Hsrc _ _ _ eq_refl Hrun cid)
    as [Hout Hin].
  { rewrite Hsplit. apply elem_of_app. right. apply list_elem_of_here. }
  unfold nodeGraphicsObject. rewrite Hn.
  apply elem_of_dom in Hout as [o1 ->], Hin as [o2 ->]. by eauto.
Qed.

Lemma nodes_before_connections_witness :
  ∃ s', BasicGraphicsScene_ctor 20 chainModel = Some s' ∧
        is_Some (nodeGraphicsObject 0%N s') ∧ is_Some (nodeGraphicsObject 1%N s').
Proof.
  destruct (BasicGraphicsScene_ctor 20 chainModel) as [s'|] eqn:E;
    [|vm_compute in E; discriminate E].
  exists s'. split; [done|].
  destruct (nodes_before_connections 20 (initialScene chainModel) s'
              ltac:(apply (bool_decide_unpack _); vm_compute; exact I)
              ltac:(apply (bool_decide_unpack _); vm_compute; exact I) E)
    as (loc & s1 & Hrun & _ & -> & H).
  assert (Hc : l_connectionsToCreate loc = [] ++ mkConnectionId 0 0 1 0 :: []).
  { vm_compute in Hrun. by simplify_eq. }
  destruct (H _ _ _ Hc) as (_ & Hout & Hin). cbn in Hout, Hin.
  destruct (createConnections_frame (l_connectionsToCreate loc) s1)
    as (_ & _ & _ & Hn & _ & _).
  unfold nodeGraphicsObject in *. rewrite Hn. done.
Defined.

(** ** Models on which the traversal goes wrong *)

Lemma loopModel_onCycle : onCycle loopModel 0%N.
Proof.
  apply tc_l with 1%N; [|apply tc_once].
  - exists (mkConnectionId 0 0 1 0). split; [|done].
    vm_compute. apply list_elem_of_here.
  - exists (mkConnectionId 1 0 0 0). split; [|done].
    vm_compute. apply list_elem_of_here.
Qed.

(** C1 (traversal termination), refuted on the code. [loopModel] has the
    two nodes 0 and 1 and the connections 0 -> 1 and 1 -> 0; it is a
    graph in the sense of [targetsExist] and [sourcesMatch]. Whatever
    the fuel, the population of the constructor and of a full reset does
    not complete on it: the far end of every connection is pushed on the
    queue whether or not it has been visited. *)
Theorem loop_population_never_completes fuel :
  targetsExist loopModel ∧ sourcesMatch loopModel ∧
  BasicGraphicsScene_ctor fuel loopModel = None ∧
  ∀ geometry orientation nodes conns draft allocated,
    onModelReset fuel
      (mkScene loopModel geometry orientation nodes conns draft allocated)
    = None.
Proof.
  split; [apply (bool_decide_unpack _); vm_compute; exact I|].
  split; [apply (bool_decide_unpack _); vm_compute; exact I|].
  split.
  - apply populate_cycle_diverges with 0%N; cbn.
    + apply list_elem_of_here.
    + apply loopModel_onCycle.
  - intros. apply populate_cycle_diverges with 0%N; cbn.
    + apply list_elem_of_here.
    + apply loopModel_onCycle.
Qed.

(** C4 (each connection recorded once, each node visual created once),
    refuted on the code. In [doubleWireModel] two outputs of node 0 feed
    node 1, which feeds node 2. The traversal completes; it has recorded
    the connection 1 -> 2 twice and has constructed five node graphics
    objects for the three nodes: nodes 1 and 2 were popped twice each,
    and the visual built when they were first reached was replaced. The
    constructor ends with three node visuals and three connection
    visuals after constructing nine objects. *)
Theorem double_wire_visited_twice :
  targetsExist doubleWireModel ∧ sourcesMatch doubleWireModel ∧
  length (allNodeIds doubleWireModel) = 3 ∧
  option_map (λ r, (l_connectionsToCreate r.1, _allocated r.2,
                    _nodeGraphicsObjects r.2 !! 1%N,
                    _nodeGraphicsObjects r.2 !! 2%N))
    (traverseGraph 20 (mkLocals (allNodeIds doubleWireModel) [] [])
       (initialScene doubleWireModel))
  = Some ([mkConnectionId 0 0 1 0; mkConnectionId 0 1 1 1;
           mkConnectionId 1 0 2 0; mkConnectionId 1 0 2 0],
          5,
          Some (mkNodeGraphicsObject 2 1),
          Some (mkNodeGraphicsObject 4 2)) ∧
  option_map (λ s, (size (_nodeGraphicsObjects s),
                    size (_connectionGraphicsObjects s), _allocated s))
    (BasicGraphicsScene_ctor 20 doubleWireModel)
  = Some (3, 3, 9).
Proof.
  split; [apply (bool_decide_unpack _); vm_compute; exact I|].
  split; [apply (bool_decide_unpack _); vm_compute; exact I|].
  split; [reflexivity|].
  split; vm_compute; reflexivity.
Qed.

(** ** Orientation *)

Lemma drainFifo_sameKeys fuel loc s1 s2 :
  sameKeys s1 s2 → agree (drainFifo fuel loc s1) (drainFifo fuel loc s2).
Proof.
  revert loc s1 s2. induction fuel as [|fuel IH]; intros loc s1 s2 Hk; cbn.
  - destruct (l_fifo loc); cbn; done.
  - destruct (l_fifo loc) as [|nodeId rest]; cbn; [done|].
    destruct Hk as (Hm & Hn & Hc). rewrite Hm. apply IH.
    repeat split; cbn; [done| |done]. by rewrite !dom_insert_L, Hn.
Qed.

Lemma traverseGraph_sameKeys fuel loc s1 s2 :
  sameKeys s1 s2 → agree (traverseGraph fuel loc s1) (traverseGraph fuel loc s2).
Proof.
  revert loc s1 s2. induction fuel as [|fuel IH]; intros loc s1 s2 Hk; cbn.
  - destruct (l_allNodeIds loc); cbn; done.
  - destruct (l_allNodeIds loc) as [|firstId rest]; cbn; [done|].
    pose proof (drainFifo_sameKeys fuel
      (mkLocals (erase firstId (firstId :: rest)) [firstId]
         (l_connectionsToCreate loc)) s1 s2 Hk) as H.
    unfold agree in H.
    destruct (drainFifo fuel _ s1) as [[loc1 t1]|],
             (drainFifo fuel _ s2) as [[loc2 t2]|]; try done.
    destruct H as [-> H]. by apply IH.
Qed.

Lemma createConnections_sameKeys cids s1 s2 :
  sameKeys s1 s2 →
  sameKeys (createConnections cids s1) (createConnections cids s2).
Proof.
  intros (Hm & Hn & Hc).
  destruct (createConnections_frame cids s1) as (Hm1 & _ & _ & Hn1 & _ & _).
  destruct (createConnections_frame cids s2) as (Hm2 & _ & _ & Hn2 & _ & _).
  repeat split.
  - by rewrite Hm1, Hm2.
  - by rewrite Hn1, Hn2.
  - by rewrite !createConnections_dom, Hc.
Qed.

Lemma populate_sameKeys fuel s1 s2 :
  sameKeys s1 s2 →
  match traverseGraphAndPopulateGraphicsObjects fuel s1,
        traverseGraphAndPopulateGraphicsObjects fuel s2 with
  | Some t1, Some t2 => sameKeys t1 t2
  | None, None => True
  | _, _ => False
  end.
Proof.
  intros Hk. unfold traverseGraphAndPopulateGraphicsObjects.
  destruct Hk as (Hm & Hn & Hc). rewrite Hm.
  pose proof (traverseGraph_sameKeys fuel
    (mkLocals (allNodeIds (_graphModel s2)) [] []) s1 s2
    (conj Hm (conj Hn Hc))) as H.
  unfold agree in H.
  destruct (traverseGraph fuel _ s1) as [[loc1 t1]|],
           (traverseGraph fuel _ s2) as [[loc2 t2]|]; try done.
  destruct H as [-> H]. by apply createConnections_sameKeys.
Qed.

(** C5 (reset equivalence). [setOrientation] with the current
    orientation returns the scene as it is. With the other orientation
    it behaves, for every fuel, like a fresh population from the model:
    either neither completes, or both do, and then the scene has the new
    orientation, the geometry that goes with it, and visual maps with
    the key sets of the freshly constructed scene. And it does produce
    them: on a model that is a graph without a cycle there is a fuel
    with which the call returns a scene and so does the fresh
    construction; the returned scene has the new orientation and its
    geometry, the key sets of the fresh scene, a node visual exactly for
    the node ids of the model and a connection visual exactly for the
    connections of the out ports of its nodes. *)
Theorem setOrientation_reset_equivalence fuel orientation s :
  (orientation = _orientation s → setOrientation fuel orientation s = Some s) ∧
  (orientation ≠ _orientation s →
   match setOrientation fuel orientation s,
         BasicGraphicsScene_ctor fuel (_graphModel s) with
   | Some s', Some fresh =>
     _orientation s' = orientation ∧
     _nodeGeometry s' =
       match orientation with
       | Horizontal => DefaultHorizontalNodeGeometry
       | Vertical => DefaultVerticalNodeGeometry
       end ∧
     dom (_nodeGraphicsObjects s') = dom (_nodeGraphicsObjects fresh) ∧
     dom (_connectionGraphicsObjects s')
       = dom (_connectionGraphicsObjects fresh)
   | None, None => True
   | _, _ => False
   end) ∧
  (orientation ≠ _orientation s →
   targetsExist (_graphModel s) → layered (_graphModel s) →
   ∃ fuel' s' fresh,
     setOrientation fuel' orientation s = Some s' ∧
     BasicGraphicsScene_ctor fuel' (_graphModel s) = Some fresh ∧
     _orientation s' = orientation ∧
     _nodeGeometry s' =
       match orientation with
       | Horizontal => DefaultHorizontalNodeGeometry
       | Vertical => DefaultVerticalNodeGeometry
       end ∧
     dom (_nodeGraphicsObjects s') = dom (_nodeGraphicsObjects fresh) ∧
     dom (_connectionGraphicsObjects s')
       = dom (_connectionGraphicsObjects fresh) ∧
     dom (_nodeGraphicsObjects s')
       = list_to_set (allNodeIds (_graphModel s)) ∧
     ∀ cid, cid ∈ dom (_connectionGraphicsObjects s') ↔
       ∃ n i, n ∈ allNodeIds (_graphModel s) ∧
              (i < outPortCount (_graphModel s) n)%N ∧
              cid ∈ connections (_graphModel s) n PortType.Out i).
Proof.
  split; [|split].
  - unfold setOrientation. intros ->. by case_decide.
  - unfold setOrientation. intros Hne. case_decide as Hd; [|by destruct Hd].
    unfold onModelReset, BasicGraphicsScene_ctor. cbn.
    match goal with
    | |- context [traverseGraphAndPopulateGraphicsObjects fuel ?a] =>
      pose proof (populate_sameKeys fuel a (initialScene (_graphModel s))) as H;
      pose proof (populate_frame fuel a) as Hfr
    end.
    destruct (traverseGraphAndPopulateGraphicsObjects fuel (mkScene _ _ _ _ _ _ _))
      as [s'|];
    destruct (traverseGraphAndPopulateGraphicsObjects fuel (initialScene _))
      as [fresh|]; try (by apply H).
    destruct H as (_ & Hn & Hc); [done|].
    destruct (Hfr s' eq_refl) as (_ & Hg & Ho & _).
    by rewrite Hg, Ho.
  - intros Hne Ht Hl.
    destruct (populate_terminates (_graphModel s) Ht Hl) as (fuel' & Hfuel).
    pose (cleared :=
      mkScene (_graphModel s)
        (match orientation with
         | Horizontal => DefaultHorizontalNodeGeometry
         | Vertical => DefaultVerticalNodeGeometry
         end)
        orientation ∅ ∅ (_draftConnection s) (_allocated s)).
    destruct (Hfuel cleared eq_refl) as [s' Hs'].
    destruct (Hfuel (initialScene (_graphModel s)) eq_refl) as [fresh Hfresh].
    exists fuel', s', fresh.
    assert (Hset : setOrientation fuel' orientation s = Some s').
    { unfold setOrientation.
      destruct (decide (_orientation s ≠ orientation)) as [_|Hd];
        [exact Hs'|]. destruct Hd. congruence. }
    destruct (populate_frame _ _ _ Hs') as (_ & Hg & Ho & _).
    destruct (populate_keys fuel' cleared s' Ht Hs') as [Hn Hc].
    destruct (populate_keys fuel' (initialScene (_graphModel s)) fresh Ht Hfresh)
      as [Hn' Hc'].
    cbn in Hg, Ho, Hn, Hc, Hn', Hc'.
    split; [exact Hset|]. split; [exact Hfresh|].
    split; [exact Ho|]. split; [exact Hg|].
    split; [by rewrite Hn, Hn'|].
    split.
    { apply set_eq. intros c. by rewrite Hc, Hc'. }
    split.
    { rewrite Hn, dom_empty_L. set_solver. }
    intros cid. rewrite Hc, dom_empty_L. split.
    + intros [H|(n & Hin & Hout)]; [set_solver|].
      apply elem_of_outConnections in Hout as (i & Hi & Hout).
      by exists n, i.
    + intros (n & i & Hin & Hi & Hout). right. exists n. split; [done|].
      apply elem_of_outConnections. by exists i.
Qed.

Lemma setOrientation_reset_equivalence_witness :
  setOrientation 20 Horizontal (initialScene chainModel)
    = Some (initialScene chainModel) ∧
  match setOrientation 20 Vertical (initialScene chainModel),
         BasicGraphicsScene_ctor 20 (_graphModel (initialScene chainModel)) with
   | Some s', Some fresh =>
     _orientation s' = Vertical ∧
     _nodeGeometry s' =
       match Vertical with
       | Horizontal => DefaultHorizontalNodeGeometry
       | Vertical => DefaultVerticalNodeGeometry
       end ∧
     dom (_nodeGraphicsObjects s') = dom (_nodeGraphicsObjects fresh) ∧
     dom (_connectionGraphicsObjects s')
       = dom (_connectionGraphicsObjects fresh)
   | None, None => True
   | _, _ => False
   end ∧
  ∃ fuel' s' fresh,
     setOrientation fuel' Vertical (initialScene chainModel) = Some s' ∧
     BasicGraphicsScene_ctor fuel' (_graphModel (initialScene chainModel)) = Some fresh ∧
     _orientation s' = Vertical ∧
     _nodeGeometry s' =
       match Vertical with
       | Horizontal => DefaultHorizontalNodeGeometry
       | Vertical => DefaultVerticalNodeGeometry
       end ∧
     dom (_nodeGraphicsObjects s') = dom (_nodeGraphicsObjects fresh) ∧
     dom (_connectionGraphicsObjects s')
       = dom (_connectionGraphicsObjects fresh) ∧
     dom (_nodeGraphicsObjects s')
       = list_to_set (allNodeIds (_graphModel (initialScene chainModel))) ∧
     ∀ cid, cid ∈ dom (_connectionGraphicsObjects s') ↔
       ∃ n i, n ∈ allNodeIds (_graphModel (initialScene chainModel)) ∧
              (i < outPortCount (_graphModel (initialScene chainModel)) n)%N ∧
              cid ∈ connections (_graphModel (initialScene chainModel)) n PortType.Out i.
Proof.
  destruct (setOrientation_reset_equivalence 20 Horizontal
              (initialScene chainModel)) as (Hsame & _ & _).
  destruct (setOrientation_reset_equivalence 20 Vertical
              (initialScene chainModel)) as (_ & Hagree & Hproduce).
  split; [exact (Hsame eq_refl)|].
  split.
  - apply Hagree. discriminate.
  - apply Hproduce.
    + discriminate.
    + apply (bool_decide_unpack _). vm_compute. exact I.
    + exists (λ n, if decide (n = 0%N) then 1 else 0).
      apply (bool_decide_unpack _). vm_compute. exact I.
Defined.

(** ** The draft connection *)

(** C6 (idempotence). Calling [resetDraftConnection] twice gives the
    scene that one call gives; without a draft connection the call
    changes nothing; in every case there is no draft afterwards and the
    model and both visual maps are as before. *)
Theorem resetDraftConnection_idempotent s :
  resetDraftConnection (resetDraftConnection s) = resetDraftConnection s ∧
  (_draftConnection s = None → resetDraftConnection s = s) ∧
  _draftConnection (resetDraftConnection s) = None ∧
  _graphModel (resetDraftConnection s) = _graphModel s ∧
  _nodeGraphicsObjects (resetDraftConnection s) = _nodeGraphicsObjects s ∧
  _connectionGraphicsObjects (resetDraftConnection s)
    = _connectionGraphicsObjects s.
Proof.
  repeat split. destruct s as [m g o ns cs d k]. cbn. by intros ->.
Qed.

Lemma resetDraftConnection_idempotent_witness :
  resetDraftConnection (initialScene chainModel) = initialScene chainModel.
Proof.
  apply (resetDraftConnection_idempotent (initialScene chainModel)).
  reflexivity.
Defined.

Lemma draftCall_ok call s : sceneOk s → sceneOk (draftCall call s).
Proof.
  destruct call; [apply makeDraftConnection_ok|apply resetDraftConnection_ok].
Qed.

Lemma draftCalls_ok calls s : sceneOk s → sceneOk (draftCalls calls s).
Proof.
  revert s. induction calls as [|call calls IH]; intros s Hs; [done|].
  cbn. by apply IH, draftCall_ok.
Qed.

Lemma draftCalls_frame calls s :
  _connectionGraphicsObjects (draftCalls calls s) = _connectionGraphicsObjects s ∧
  _nodeGraphicsObjects (draftCalls calls s) = _nodeGraphicsObjects s ∧
  _graphModel (draftCalls calls s) = _graphModel s ∧
  _allocated s ≤ _allocated (draftCalls calls s).
Proof.
  revert s. induction calls as [|call calls IH]; intros s; [done|].
  cbn. destruct (IH (draftCall call s)) as (-> & -> & -> & Hle).
  destruct call; cbn in *; repeat split; lia.
Qed.

Lemma draftsMade_fresh calls s k :
  k ∈ draftsMade calls s → _allocated s ≤ k.
Proof.
  revert s. induction calls as [|call calls IH]; intros s; cbn.
  - by intros ?%elem_of_nil.
  - destruct call.
    + intros [->|H%IH]%elem_of_cons; cbn in *; lia.
    + intros H%IH. done.
Qed.

(** Of all drafts there have been, the scene holds at most the one in
    [_draftConnection]. *)
Lemma everDraft_held calls s k :
  sceneOk s → k ∈ everDraft calls s →
  holdsConnectionObject (draftCalls calls s) k →
  ∃ draft, _draftConnection (draftCalls calls s) = Some draft ∧
           cgo_object draft = k.
Proof.
  intros Hs Hk [(cid & cgo & Hc & Hn)|H]; [exfalso|done].
  destruct (draftCalls_frame calls s) as (Hconns & _ & _ & _).
  rewrite Hconns in Hc.
  destruct (ok_conn _ Hs cid cgo Hc) as [_ Hlt].
  unfold everDraft in Hk.
  destruct (_draftConnection s) as [d|] eqn:Hd.
  - apply elem_of_cons in Hk as [->|Hk].
    + by apply (ok_draft_owner _ Hs cid cgo d).
    + apply draftsMade_fresh in Hk. lia.
  - apply draftsMade_fresh in Hk. lia.
Qed.

(** C10 (at most one draft). After any sequence of
    [makeDraftConnection] and [resetDraftConnection] calls, of all the
    drafts there have been the scene holds at most one; and
    [makeDraftConnection] called while a draft exists puts a new object
    for the given id in its place, after which the scene no longer
    holds the old one. *)
Theorem at_most_one_draft calls s :
  sceneOk s →
  (∀ j k, j ∈ everDraft calls s → k ∈ everDraft calls s →
     holdsConnectionObject (draftCalls calls s) j →
     holdsConnectionObject (draftCalls calls s) k → j = k) ∧
  (∀ cid old, _draftConnection (draftCalls calls s) = Some old →
     (∃ new, _draftConnection (makeDraftConnection cid (draftCalls calls s))
               = Some new ∧
             connectionId new = cid ∧ cgo_object new ≠ cgo_object old) ∧
     ¬ holdsConnectionObject (makeDraftConnection cid (draftCalls calls s))
         (cgo_object old)).
Proof.
  intros Hs. split.
  - intros j k Hj Hk Hhj Hhk.
    destruct (everDraft_held calls s j Hs Hj Hhj) as (d1 & Hd1 & <-).
    destruct (everDraft_held calls s k Hs Hk Hhk) as (d2 & Hd2 & <-).
    congruence.
  - intros cid old Hold.
    pose proof (draftCalls_ok calls s Hs) as Hs'.
    pose proof (ok_draft _ Hs' old Hold) as Hlt.
    split.
    + eexists. split; [done|]. cbn. split; [done|lia].
    + intros [(c & cgo & Hc & Hn)|(d & Hd & Hn)]; cbn in *.
      * by apply (ok_draft_owner _ Hs' c cgo old).
      * simplify_eq. cbn in Hn. lia.
Qed.

Lemma at_most_one_draft_witness :
  ∃ new,
    _draftConnection
      (makeDraftConnection (mkConnectionId 1 0 7 0)
         (draftCalls [MakeDraft (mkConnectionId 0 0 7 0)]
            (initialScene chainModel))) = Some new ∧
    connectionId new = mkConnectionId 1 0 7 0 ∧
    cgo_object new ≠ 0.
Proof.
  destruct (at_most_one_draft [MakeDraft (mkConnectionId 0 0 7 0)]
              (initialScene chainModel)) as [_ H].
  - apply sceneOk_empty.
  - destruct (H (mkConnectionId 1 0 7 0)
                (mkConnectionGraphicsObject 0 (mkConnectionId 0 0 7 0)))
      as [Hnew _]; [reflexivity|exact Hnew].
Defined.

(** ** Handlers and lookups *)

(** C7 (connection deleted). The handler removes the visual filed under
    [cid], which changes nothing in the connection map when there is
    none; the other connection visuals and the node visuals stay. A
    draft connection whose id is [cid] is destroyed, any other draft is
    kept. *)
Theorem onConnectionDeleted_removes cid s :
  _connectionGraphicsObjects (onConnectionDeleted cid s)
    = delete cid (_connectionGraphicsObjects s) ∧
  (connectionGraphicsObject cid s = None →
   _connectionGraphicsObjects (onConnectionDeleted cid s)
     = _connectionGraphicsObjects s) ∧
  connectionGraphicsObject cid (onConnectionDeleted cid s) = None ∧
  (∀ other, other ≠ cid →
     connectionGraphicsObject other (onConnectionDeleted cid s)
       = connectionGraphicsObject other s) ∧
  (∀ draft, _draftConnection s = Some draft → connectionId draft = cid →
     _draftConnection (onConnectionDeleted cid s) = None) ∧
  (∀ draft, _draftConnection s = Some draft → connectionId draft ≠ cid →
     _draftConnection (onConnectionDeleted cid s) = Some draft) ∧
  (_draftConnection s = None →
     _draftConnection (onConnectionDeleted cid s) = None) ∧
  _nodeGraphicsObjects (onConnectionDeleted cid s) = _nodeGraphicsObjects s.
Proof.
  unfold onConnectionDeleted. cbv zeta. rewrite !updateAttachedNodes_id.
  assert (H1 : ∃ s1,
    s1 = match _connectionGraphicsObjects s !! cid with
         | Some _ =>
           mkScene (_graphModel s) (_nodeGeometry s) (_orientation s)
             (_nodeGraphicsObjects s) (delete cid (_connectionGraphicsObjects s))
             (_draftConnection s) (_allocated s)
         | None => s
         end ∧
    _connectionGraphicsObjects s1 = delete cid (_connectionGraphicsObjects s) ∧
    _draftConnection s1 = _draftConnection s ∧
    _nodeGraphicsObjects s1 = _nodeGraphicsObjects s).
  { eexists. split; [reflexivity|].
    destruct (_connectionGraphicsObjects s !! cid) eqn:Hc; cbn; [done|].
    by rewrite delete_id. }
  destruct H1 as (s1 & <- & Hdel & Hdraft & Hnodes).
  assert (H2 : ∃ s2,
    s2 = match _draftConnection s1 with
         | Some draft =>
           if decide (connectionId draft = cid)
           then resetDraftConnection s1 else s1
         | None => s1
         end ∧
    _connectionGraphicsObjects s2 = _connectionGraphicsObjects s1 ∧
    _nodeGraphicsObjects s2 = _nodeGraphicsObjects s1 ∧
    _draftConnection s2 =
      match _draftConnection s1 with
      | Some draft =>
        if decide (connectionId draft = cid) then None else Some draft
      | None => None
      end).
  { eexists. split; [reflexivity|].
    destruct (_draftConnection s1) as [draft|] eqn:Hd; [|done].
    by case_decide. }
  destruct H2 as (s2 & <- & Hconns2 & Hnodes2 & Hdraft2).
  unfold connectionGraphicsObject.
  rewrite Hconns2, Hnodes2, Hdraft2, Hdel, Hdraft, Hnodes.
  repeat split.
  - intros Hnone. apply delete_id.
    by destruct (_connectionGraphicsObjects s !! cid).
  - by rewrite lookup_delete_eq.
  - intros other Hne. by rewrite lookup_delete_ne.
  - intros draft -> Hid. by case_decide.
  - intros draft -> Hid. by case_decide.
  - by intros ->.
Qed.

Lemma onConnectionDeleted_removes_witness :
  _draftConnection
    (onConnectionDeleted (mkConnectionId 0 0 1 0)
       (makeDraftConnection (mkConnectionId 0 0 1 0)
          (setConnectionGraphicsObject (mkConnectionId 0 0 1 0)
             (initialScene chainModel)))) = None.
Proof.
  destruct (onConnectionDeleted_removes (mkConnectionId 0 0 1 0)
              (makeDraftConnection (mkConnectionId 0 0 1 0)
                 (setConnectionGraphicsObject (mkConnectionId 0 0 1 0)
                    (initialScene chainModel))))
    as (_ & _ & _ & _ & H & _).
  exact (H (mkConnectionGraphicsObject 1 (mkConnectionId 0 0 1 0))
           eq_refl eq_refl).
Defined.

(** C8 (lookups). [nodeGraphicsObject] and [connectionGraphicsObject]
    always return: the visual filed under the id when there is one, and
    the null pointer exactly when there is none. *)
Theorem lookups_never_fail nodeId cid s :
  (∀ ngo, _nodeGraphicsObjects s !! nodeId = Some ngo →
     nodeGraphicsObject nodeId s = Some ngo) ∧
  (nodeGraphicsObject nodeId s = None ↔
     nodeId ∉ dom (_nodeGraphicsObjects s)) ∧
  (∀ cgo, _connectionGraphicsObjects s !! cid = Some cgo →
     connectionGraphicsObject cid s = Some cgo) ∧
  (connectionGraphicsObject cid s = None ↔
     cid ∉ dom (_connectionGraphicsObjects s)).
Proof.
  unfold nodeGraphicsObject, connectionGraphicsObject.
  rewrite !not_elem_of_dom. repeat split.
  - by intros ngo ->.
  - by destruct (_nodeGraphicsObjects s !! nodeId).
  - by destruct (_nodeGraphicsObjects s !! nodeId).
  - by intros cgo ->.
  - by destruct (_connectionGraphicsObjects s !! cid).
  - by destruct (_connectionGraphicsObjects s !! cid).
Qed.

Lemma lookups_never_fail_witness :
  nodeGraphicsObject 3%N (setNodeGraphicsObject 3%N (initialScene chainModel))
    = Some (mkNodeGraphicsObject 0 3).
Proof.
  destruct (lookups_never_fail 3%N (mkConnectionId 0 0 1 0)
              (setNodeGraphicsObject 3%N (initialScene chainModel)))
    as (H & _).
  exact (H (mkNodeGraphicsObject 0 3) eq_refl).
Defined.

(** * Further properties of the code *)

(** ** When the population completes *)

Lemma max_list_with_attained {A} (f : A → nat) (l : list A) :
  max_list_with f l = 0 ∨ ∃ x, x ∈ l ∧ max_list_with f l = f x.
Proof.
  induction l as [|x l IH]; cbn; [by left|]. right.
  destruct (decide (max_list_with f l ≤ f x)) as [Hle|Hgt].
  - exists x. split; [apply list_elem_of_here|lia].
  - destruct IH as [H0|(y & Hy & Hm)]; [lia|].
    exists y. split; [by apply list_elem_of_further|lia].
Qed.

Lemma walk_le_longestWalk m j n :
  walk m j n → ∀ k, j ≤ k → j ≤ longestWalk m k n.
Proof.
  induction 1 as [a|j a b (c & Hc & <-) _ IH]; intros k Hk; [lia|].
  destruct k as [|k]; [lia|]. cbn [longestWalk].
  etrans; [|apply (max_list_with_ge
                     (λ c, S (longestWalk m k (inNodeId c))) _ c Hc)].
  cbn beta. apply le_n_S, IH. lia.
Qed.

Lemma longestWalk_walk m k n : walk m (longestWalk m k n) n.
Proof.
  revert n. induction k as [|k IH]; intros n; cbn [longestWalk];
    [apply walk_stop|].
  destruct (max_list_with_attained
              (λ c, S (longestWalk m k (inNodeId c))) (outConnections m n))
    as [->|(c & Hc & ->)]; [apply walk_stop|].
  eapply walk_step; [|apply IH]. by exists c.
Qed.

(** A population that completes within [fuel] ranks the nodes: the
    longest walk from a node is a rank that goes down along every
    connection. *)
Lemma completed_layeredBy fuel s s' :
  traverseGraphAndPopulateGraphicsObjects fuel s = Some s' →
  layeredBy (_graphModel s) (longestWalk (_graphModel s) fuel).
Proof.
  intros (loc & s1 & Hrun & _)%populate_inv.
  unfold layeredBy. apply Forall_forall. intros a Ha.
  apply Forall_forall. intros c Hc.
  pose proof (longestWalk_walk (_graphModel s) fuel (inNodeId c)) as Hw.
  assert (Hstep : walk (_graphModel s)
                    (S (longestWalk (_graphModel s) fuel (inNodeId c))) a).
  { eapply walk_step; [|exact Hw]. by exists c. }
  pose proof (traverseGraph_bounds_walks _ _ _ _ Hrun a _ Ha Hstep) as Hlt.
  pose proof (walk_le_longestWalk _ _ _ Hstep fuel) as Hle. lia.
Qed.

Lemma layeredBy_descends m rank a b :
  targetsExist m → layeredBy m rank →
  tc (edge m) a b → a ∈ allNodeIds m →
  b ∈ allNodeIds m ∧ rank b < rank a.
Proof.
  intros Ht Hl. induction 1 as [a b (c & Hc & <-)|a b d (c & Hc & <-) _ IH];
    intros Ha.
  - split; [by eapply targetsExist_elim|by eapply layeredBy_elim].
  - destruct IH as [Hd Hlt]; [by eapply targetsExist_elim|].
    split; [done|]. pose proof (layeredBy_elim m rank a c Hl Ha Hc). lia.
Qed.

(** X1. For a model whose connections end at its own nodes, the
    constructor's population completes for some fuel exactly when the
    model is layered, that is when its nodes can be ranked so that every
    connection goes down; and a layered model has no node on a directed
    cycle. *)
Theorem population_completes_iff_layered m :
  targetsExist m →
  ((∃ fuel s', BasicGraphicsScene_ctor fuel m = Some s') ↔ layered m) ∧
  (layered m → ∀ a, a ∈ allNodeIds m → ¬ onCycle m a).
Proof.
  intros Ht. split; [split|].
  - intros (fuel & s' & Hrun). exists (longestWalk m fuel).
    apply (completed_layeredBy fuel (initialScene m) s' Hrun).
  - intros Hl. destruct (populate_terminates m Ht Hl) as (fuel & H).
    destruct (H (initialScene m) eq_refl) as [s' Hs']. by exists fuel, s'.
  - intros (rank & Hl) a Ha Hcyc.
    destruct (layeredBy_descends m rank a a Ht Hl Hcyc Ha) as [_ Hlt]. lia.
Qed.

Lemma population_completes_iff_layered_witness :
  ∃ fuel s', BasicGraphicsScene_ctor fuel chainModel = Some s'.
Proof.
  destruct (population_completes_iff_layered chainModel) as [[_ H] _].
  - apply (bool_decide_unpack _). vm_compute. exact I.
  - apply H. exists (λ n, if decide (n = 0%N) then 1 else 0).
    apply (bool_decide_unpack _). vm_compute. exact I.
Defined.

(** X2. While the model has a directed cycle through one of its nodes,
    nothing that repopulates the scene completes: the constructor, the
    full reset, the [modelReset] signal and [setOrientation] with the
    other orientation run out of every fuel. [setOrientation] with the
    current orientation still returns at once. *)
Theorem cyclic_model_hangs fuel s a :
  a ∈ allNodeIds (_graphModel s) → onCycle (_graphModel s) a →
  BasicGraphicsScene_ctor fuel (_graphModel s) = None ∧
  onModelReset fuel s = None ∧
  notify fuel ModelReset s = None ∧
  (∀ orientation, orientation ≠ _orientation s →
     setOrientation fuel orientation s = None) ∧
  setOrientation fuel (_orientation s) s = Some s.
Proof.
  intros Ha Hcyc.
  assert (Hreset : onModelReset fuel s = None).
  { by apply populate_cycle_diverges with a. }
  split; [by apply populate_cycle_diverges with a|].
  split; [done|]. split; [done|]. split.
  - intros orientation Hne. unfold setOrientation.
    case_decide as Hd; [|by destruct Hd].
    by apply populate_cycle_diverges with a.
  - unfold setOrientation. by case_decide.
Qed.

Lemma cyclic_model_hangs_witness :
  onModelReset 50 (initialScene loopModel) = None ∧
  setOrientation 50 Vertical (initialScene loopModel) = None.
Proof.
  destruct (cyclic_model_hangs 50 (initialScene loopModel) 0%N)
    as (_ & Hreset & _ & Hset & _).
  - apply list_elem_of_here.
  - exact loopModel_onCycle.
  - split; [exact Hreset|]. apply Hset. discriminate.
Defined.

(** ** The order in which the model lists its answers *)

Lemma sameAnswers_outConnections m1 m2 n c :
  sameAnswers m1 m2 →
  c ∈ outConnections m1 n ↔ c ∈ outConnections m2 n.
Proof.
  intros (_ & Hports & Hconns). rewrite !elem_of_outConnections.
  split; intros (i & Hi & Hc); exists i.
  - rewrite <- Hports. split; [done|]. by apply Hconns.
  - rewrite Hports. split; [done|]. by apply Hconns.
Qed.

Lemma sameAnswers_sym m1 m2 : sameAnswers m1 m2 → sameAnswers m2 m1.
Proof.
  intros (Hids & Hports & Hconns). repeat split; intros.
  - by apply Hids.
  - by apply Hids.
  - done.
  - by apply Hconns.
  - by apply Hconns.
Qed.

Lemma sameAnswers_targetsExist m1 m2 :
  sameAnswers m1 m2 → targetsExist m1 → targetsExist m2.
Proof.
  intros Hsame Ht. unfold targetsExist.
  apply Forall_forall. intros n Hn. apply Forall_forall. intros c Hc.
  apply Hsame. eapply (targetsExist_elim m1 n c Ht).
  - by apply Hsame.
  - by apply (sameAnswers_outConnections m1 m2).
Qed.

Lemma sameAnswers_layered m1 m2 :
  sameAnswers m1 m2 → layered m1 → layered m2.
Proof.
  intros Hsame (rank & Hl). exists rank. unfold layeredBy.
  apply Forall_forall. intros a Ha. apply Forall_forall. intros c Hc.
  apply (layeredBy_elim m1 rank a c Hl).
  - by apply Hsame.
  - by apply (sameAnswers_outConnections m1 m2).
Qed.

Lemma ctor_keys fuel m s' :
  targetsExist m → BasicGraphicsScene_ctor fuel m = Some s' →
  dom (_nodeGraphicsObjects s') = list_to_set (allNodeIds m) ∧
  ∀ c, c ∈ dom (_connectionGraphicsObjects s') ↔
       ∃ n, n ∈ allNodeIds m ∧ c ∈ outConnections m n.
Proof.
  intros Ht Hrun. apply populate_keys in Hrun as [Hn Hc]; [|done].
  cbn in Hn, Hc. split.
  - rewrite Hn, dom_empty_L. set_solver.
  - intros c. rewrite Hc, dom_empty_L. set_solver.
Qed.

(** X3. The scene does not depend on the order in which the model lists
    its node ids and the connections of a port: for two states of a
    model that answer with the same elements, the population completes
    on one iff it completes on the other, and the completed scenes have
    the same key sets. *)
Theorem population_order_independent m1 m2 :
  sameAnswers m1 m2 → targetsExist m1 →
  ((∃ fuel s', BasicGraphicsScene_ctor fuel m1 = Some s') ↔
   (∃ fuel s', BasicGraphicsScene_ctor fuel m2 = Some s')) ∧
  ∀ fuel1 fuel2 s1 s2,
    BasicGraphicsScene_ctor fuel1 m1 = Some s1 →
    BasicGraphicsScene_ctor fuel2 m2 = Some s2 →
    dom (_nodeGraphicsObjects s1) = dom (_nodeGraphicsObjects s2) ∧
    dom (_connectionGraphicsObjects s1) = dom (_connectionGraphicsObjects s2).
Proof.
  intros Hsame Ht1.
  pose proof (sameAnswers_targetsExist _ _ Hsame Ht1) as Ht2.
  assert (Hcompl : ∀ ma mb, sameAnswers ma mb → targetsExist mb →
    (∃ fuel s', BasicGraphicsScene_ctor fuel ma = Some s') →
    ∃ fuel s', BasicGraphicsScene_ctor fuel mb = Some s').
  { intros ma mb Hab Htb (fuel & s' & Hrun).
    assert (Hl : layered mb).
    { apply (sameAnswers_layered ma mb Hab).
      exists (longestWalk ma fuel).
      apply (completed_layeredBy fuel (initialScene ma) s' Hrun). }
    destruct (populate_terminates mb Htb Hl) as (fuel' & H).
    destruct (H (initialScene mb) eq_refl) as [t Hrun'].
    by exists fuel', t. }
  split; [split|].
  - by apply Hcompl.
  - apply Hcompl; [by apply sameAnswers_sym|done].
  - intros fuel1 fuel2 s1 s2 H1 H2.
    apply ctor_keys in H1 as [Hn1 Hc1]; [|done].
    apply ctor_keys in H2 as [Hn2 Hc2]; [|done].
    split.
    + rewrite Hn1, Hn2. apply set_eq. intros n.
      rewrite !elem_of_list_to_set. apply Hsame.
    + apply set_eq. intros c. rewrite Hc1, Hc2.
      split; intros (n & Hn & Hc); exists n.
      * split; [by apply Hsame|by apply (sameAnswers_outConnections m1 m2)].
      * split; [by apply Hsame|by apply (sameAnswers_outConnections m1 m2)].
Qed.

Lemma population_order_independent_witness :
  (∃ fuel s', BasicGraphicsScene_ctor fuel chainModel = Some s') ↔
  (∃ fuel s', BasicGraphicsScene_ctor fuel chainModelReordered = Some s').
Proof.
  destruct (population_order_independent chainModel chainModelReordered)
    as [H _].
  - split; [|split].
    + intros n. cbn. rewrite !elem_of_cons, !elem_of_nil. tauto.
    + intros n. reflexivity.
    + intros n i c. reflexivity.
  - apply (bool_decide_unpack _). vm_compute. exact I.
  - exact H.
Defined.

(** ** What a full reset leaves of the old visuals *)

Lemma traverseGraph_made_since fuel loc s loc' s' :
  l_fifo loc = [] → _nodeGraphicsObjects s = ∅ →
  traverseGraph fuel loc s = Some (loc', s') →
  _allocated s ≤ _allocated s' ∧
  ∀ n o, _nodeGraphicsObjects s' !! n = Some o → _allocated s ≤ ngo_object o.
Proof.
  intros Hf Hempty Hrun.
  eapply (traverseGraph_invariant
            (λ _ t, _allocated s ≤ _allocated t ∧
                    ∀ n o, _nodeGraphicsObjects t !! n = Some o →
                           _allocated s ≤ ngo_object o)) in Hrun as [H _];
    [exact H| | |done|].
  - intros loc0 t nodeId rest _ [Hle Hall]. cbn. split; [lia|].
    intros n o. rewrite lookup_insert. case_decide; intros ?; simplify_eq.
    + cbn. lia.
    + by eapply Hall.
  - by intros loc0 t firstId rest _ _ H.
  - cbn beta. split; [lia|]. intros n o. by rewrite Hempty, lookup_empty.
Qed.

Lemma createConnections_made_since k cids s :
  k ≤ _allocated s →
  (∀ c o, _connectionGraphicsObjects s !! c = Some o → k ≤ cgo_object o) →
  ∀ c o, _connectionGraphicsObjects (createConnections cids s) !! c = Some o →
         k ≤ cgo_object o.
Proof.
  intros Hle Hall. induction cids as [|cid cids IH] using rev_ind; [done|].
  rewrite createConnections_snoc. cbn. intros c o.
  rewrite lookup_insert. case_decide; intros ?; simplify_eq.
  - cbn. destruct (createConnections_frame cids s) as (_ & _ & _ & _ & _ & ->).
    lia.
  - by eapply IH.
Qed.

Lemma populate_made_since fuel s s' :
  _nodeGraphicsObjects s = ∅ → _connectionGraphicsObjects s = ∅ →
  traverseGraphAndPopulateGraphicsObjects fuel s = Some s' →
  (∀ n o, _nodeGraphicsObjects s' !! n = Some o → _allocated s ≤ ngo_object o) ∧
  (∀ c o, _connectionGraphicsObjects s' !! c = Some o →
          _allocated s ≤ cgo_object o).
Proof.
  intros Hn Hc (loc & s1 & Hrun & ->)%populate_inv.
  assert (Hc1 : _connectionGraphicsObjects s1 = ∅).
  { rewrite <- Hc. eapply traverseGraph_frame in Hrun; [|done]. apply Hrun. }
  apply traverseGraph_made_since in Hrun as [Hle Hnodes]; [|done..].
  destruct (createConnections_frame (l_connectionsToCreate loc) s1)
    as (_ & _ & _ & Hn1 & _ & _).
  split.
  - rewrite Hn1. exact Hnodes.
  - apply createConnections_made_since; [done|].
    intros c o. by rewrite Hc1, lookup_empty.
Qed.

(** X4. A full reset recreates every visual: after [onModelReset], and
    after [setOrientation] with the other orientation, no object that
    was in one of the two maps before is in them any more. *)
Theorem reset_recreates_every_visual fuel orientation s s' :
  sceneOk s →
  onModelReset fuel s = Some s' ∨
  (orientation ≠ _orientation s ∧ setOrientation fuel orientation s = Some s') →
  (∀ n o n' o', nodeGraphicsObject n s = Some o →
     nodeGraphicsObject n' s' = Some o' → ngo_object o ≠ ngo_object o') ∧
  (∀ c o c' o', connectionGraphicsObject c s = Some o →
     connectionGraphicsObject c' s' = Some o' → cgo_object o ≠ cgo_object o').
Proof.
  intros Hs Hrun.
  assert (Hfresh :
    (∀ n o, _nodeGraphicsObjects s' !! n = Some o → _allocated s ≤ ngo_object o) ∧
    (∀ c o, _connectionGraphicsObjects s' !! c = Some o →
            _allocated s ≤ cgo_object o)).
  { destruct Hrun as [Hrun|[Hne Hrun]].
    - by apply populate_made_since in Hrun.
    - unfold setOrientation in Hrun. case_decide as Hd; [|by destruct Hd].
      by apply populate_made_since in Hrun. }
  destruct Hfresh as [Hn Hc].
  unfold nodeGraphicsObject, connectionGraphicsObject. split.
  - intros n o n' o'.
    destruct (_nodeGraphicsObjects s !! n) as [x|] eqn:Hx; [|done].
    destruct (_nodeGraphicsObjects s' !! n') as [y|] eqn:Hy; [|done].
    intros ? ?; simplify_eq.
    destruct (ok_node _ Hs n o Hx) as [_ Hlt].
    specialize (Hn n' o' Hy). lia.
  - intros c o c' o'.
    destruct (_connectionGraphicsObjects s !! c) as [x|] eqn:Hx; [|done].
    destruct (_connectionGraphicsObjects s' !! c') as [y|] eqn:Hy; [|done].
    intros ? ?; simplify_eq.
    destruct (ok_conn _ Hs c o Hx) as [_ Hlt].
    specialize (Hc c' o' Hy). lia.
Qed.

Lemma reset_recreates_every_visual_witness :
  match onModelReset 20 (onNodeCreated 0%N (initialScene chainModel)) with
  | Some s' =>
    match nodeGraphicsObject 0%N s' with
    | Some o' => 0 ≠ ngo_object o'
    | None => True
    end
  | None => False
  end.
Proof.
  destruct (onModelReset 20 (onNodeCreated 0%N (initialScene chainModel)))
    as [s'|] eqn:E; [|vm_compute in E; discriminate E].
  destruct (reset_recreates_every_visual 20 Horizontal
              (onNodeCreated 0%N (initialScene chainModel)) s') as [H _].
  - apply setNodeGraphicsObject_ok, sceneOk_empty.
  - left. exact E.
  - destruct (nodeGraphicsObject 0%N s') as [o'|] eqn:Ho; [|exact I].
    exact (H 0%N (mkNodeGraphicsObject 0 0) 0%N o' eq_refl Ho).
Defined.

(** ** Invariants of the scenes that can arise *)

(** X5. In every scene that arises from the constructor by the public
    operations, the handlers and changes of the model, a visual is filed
    under the id it was built for, no object is filed under two keys,
    and the draft connection is none of the objects in the connection
    map. *)
Theorem reachable_scene_ownership s :
  reachable s →
  (∀ n o, nodeGraphicsObject n s = Some o → ngo_nodeId o = n) ∧
  (∀ c o, connectionGraphicsObject c s = Some o → connectionId o = c) ∧
  (∀ n1 n2 o1 o2, nodeGraphicsObject n1 s = Some o1 →
     nodeGraphicsObject n2 s = Some o2 →
     ngo_object o1 = ngo_object o2 → n1 = n2) ∧
  (∀ c1 c2 o1 o2, connectionGraphicsObject c1 s = Some o1 →
     connectionGraphicsObject c2 s = Some o2 →
     cgo_object o1 = cgo_object o2 → c1 = c2) ∧
  (∀ c o draft, connectionGraphicsObject c s = Some o →
     _draftConnection s = Some draft → cgo_object o ≠ cgo_object draft).
Proof.
  intros [Hn Hc Hd Hno Hco Hdo Hk]%reachable_ok.
  assert (Hnl : ∀ n o, nodeGraphicsObject n s = Some o →
                       _nodeGraphicsObjects s !! n = Some o).
  { intros n o. unfold nodeGraphicsObject.
    by destruct (_nodeGraphicsObjects s !! n). }
  assert (Hcl : ∀ c o, connectionGraphicsObject c s = Some o →
                       _connectionGraphicsObjects s !! c = Some o).
  { intros c o. unfold connectionGraphicsObject.
    by destruct (_connectionGraphicsObjects s !! c). }
  repeat split.
  - intros n o H%Hnl. by apply Hn.
  - intros c o H%Hcl. by apply Hc.
  - intros n1 n2 o1 o2 H1%Hnl H2%Hnl. by eapply Hno.
  - intros c1 c2 o1 o2 H1%Hcl H2%Hcl. by eapply Hco.
  - intros c o draft H%Hcl. by eapply Hdo.
Qed.

Lemma reachable_scene_ownership_witness :
  connectionGraphicsObject (mkConnectionId 0 0 1 0) busyScene
    = Some (mkConnectionGraphicsObject 3 (mkConnectionId 0 0 1 0)) ∧
  _draftConnection busyScene
    = Some (mkConnectionGraphicsObject 4 (mkConnectionId 0 0 1 0)) ∧
  cgo_object (mkConnectionGraphicsObject 3 (mkConnectionId 0 0 1 0))
    ≠ cgo_object (mkConnectionGraphicsObject 4 (mkConnectionId 0 0 1 0)).
Proof.
  destruct (reachable_scene_ownership busyScene) as (_ & _ & _ & _ & H).
  - apply reach_makeDraftConnection, reach_onConnectionCreated,
      reach_onNodeCreated, reach_onNodeCreated, reach_resetDraftConnection,
      reach_makeDraftConnection.
    apply (reach_ctor 0 (graphOf [] 1 [])). reflexivity.
  - split; [reflexivity|]. split; [reflexivity|].
    exact (H (mkConnectionId 0 0 1 0)
             (mkConnectionGraphicsObject 3 (mkConnectionId 0 0 1 0))
             (mkConnectionGraphicsObject 4 (mkConnectionId 0 0 1 0))
             eq_refl eq_refl).
Defined.

Lemma onConnectionDeleted_frame cid s :
  _graphModel (onConnectionDeleted cid s) = _graphModel s ∧
  _nodeGeometry (onConnectionDeleted cid s) = _nodeGeometry s ∧
  _orientation (onConnectionDeleted cid s) = _orientation s ∧
  _allocated (onConnectionDeleted cid s) = _allocated s.
Proof.
  unfold onConnectionDeleted. cbv zeta. rewrite !updateAttachedNodes_id.
  destruct (_connectionGraphicsObjects s !! cid); cbn;
    destruct (_draftConnection s); cbn; try case_decide; done.
Qed.

Lemma onNodeDeleted_frame nodeId s :
  _graphModel (onNodeDeleted nodeId s) = _graphModel s ∧
  _nodeGeometry (onNodeDeleted nodeId s) = _nodeGeometry s ∧
  _orientation (onNodeDeleted nodeId s) = _orientation s ∧
  _connectionGraphicsObjects (onNodeDeleted nodeId s)
    = _connectionGraphicsObjects s ∧
  _draftConnection (onNodeDeleted nodeId s) = _draftConnection s ∧
  _allocated (onNodeDeleted nodeId s) = _allocated s.
Proof.
  unfold onNodeDeleted. by destruct (_nodeGraphicsObjects s !! nodeId).
Qed.

(** X6. In every scene that can arise the geometry is the one that
    belongs to the orientation: [DefaultHorizontalNodeGeometry] for
    [Horizontal], [DefaultVerticalNodeGeometry] for [Vertical]. *)
Theorem reachable_geometry_matches_orientation s :
  reachable s → _nodeGeometry s = geometryOf (_orientation s).
Proof.
  induction 1 as [fuel m s H|m s _ IH|cid s _ IH|s _ IH|fuel o s s' _ IH H
                 |fuel s s' _ IH H|cid s _ IH|cid s _ IH|n s _ IH|n s _ IH].
  - apply populate_frame in H as (_ & -> & -> & _). done.
  - done.
  - done.
  - done.
  - unfold setOrientation in H. case_decide; [|by simplify_eq].
    apply populate_frame in H as (_ & -> & -> & _). cbn. by destruct o.
  - apply populate_frame in H as (_ & -> & -> & _). done.
  - unfold onConnectionCreated. by rewrite !updateAttachedNodes_id.
  - destruct (onConnectionDeleted_frame cid s) as (_ & -> & -> & _). done.
  - done.
  - destruct (onNodeDeleted_frame n s) as (_ & -> & -> & _). done.
Qed.

Lemma reachable_geometry_matches_orientation_witness :
  match setOrientation 20 Vertical (initialScene (graphOf [] 1 [])) with
  | Some s' => _nodeGeometry s' = geometryOf (_orientation s')
  | None => False
  end.
Proof.
  destruct (setOrientation 20 Vertical (initialScene (graphOf [] 1 [])))
    as [s'|] eqn:E; [|vm_compute in E; discriminate E].
  apply (reachable_geometry_matches_orientation s').
  apply (reach_setOrientation 20 Vertical (initialScene (graphOf [] 1 [])) s');
    [|exact E].
  apply (reach_ctor 0 (graphOf [] 1 [])). reflexivity.
Defined.

(** X7. [setOrientation] is idempotent: when a call has completed, a
    second call with the same orientation returns the scene as it is,
    whatever the fuel. *)
Theorem setOrientation_twice fuel fuel' orientation s s' :
  setOrientation fuel orientation s = Some s' →
  setOrientation fuel' orientation s' = Some s'.
Proof.
  intros H.
  assert (Ho : _orientation s' = orientation).
  { unfold setOrientation in H.
    destruct (decide (_orientation s ≠ orientation)) as [Hne|Heq].
    - by apply populate_frame in H as (_ & _ & -> & _).
    - injection H as <-.
      destruct (decide (_orientation s = orientation)); [done|by destruct Heq]. }
  unfold setOrientation. case_decide; [done|done].
Qed.

Lemma setOrientation_twice_witness :
  match setOrientation 20 Vertical (initialScene chainModel) with
  | Some s' => setOrientation 0 Vertical s' = Some s'
  | None => False
  end.
Proof.
  destruct (setOrientation 20 Vertical (initialScene chainModel))
    as [s'|] eqn:E; [|vm_compute in E; discriminate E].
  exact (setOrientation_twice 20 0 Vertical (initialScene chainModel) s' E).
Defined.

(** ** Signals and key sets *)

Lemma onConnectionDeleted_fields cid s :
  _connectionGraphicsObjects (onConnectionDeleted cid s)
    = delete cid (_connectionGraphicsObjects s) ∧
  _nodeGraphicsObjects (onConnectionDeleted cid s) = _nodeGraphicsObjects s ∧
  _draftConnection (onConnectionDeleted cid s)
    = draftAfter (_draftConnection s) (ConnectionDeleted cid).
Proof.
  unfold onConnectionDeleted. cbv zeta. rewrite !updateAttachedNodes_id.
  destruct (_connectionGraphicsObjects s !! cid) eqn:Hc; cbn.
  - destruct (_draftConnection s) as [d|]; cbn; [|done].
    destruct (decide (connectionId d = cid)); cbn; done.
  - rewrite (delete_id _ _ Hc).
    destruct (_draftConnection s) as [d|] eqn:Hd; cbn; [|done].
    destruct (decide (connectionId d = cid)); cbn; done.
Qed.

Lemma onNodeDeleted_nodes nodeId s :
  _nodeGraphicsObjects (onNodeDeleted nodeId s)
  = delete nodeId (_nodeGraphicsObjects s).
Proof.
  unfold onNodeDeleted.
  destruct (_nodeGraphicsObjects s !! nodeId) eqn:Hn; cbn; [done|].
  by rewrite delete_id.
Qed.

Lemma onNodeObserved_id nodeId s :
  onNodePositionUpdated nodeId s = s ∧ onNodeUpdated nodeId s = s.
Proof.
  unfold onNodePositionUpdated, onNodeUpdated.
  by destruct (nodeGraphicsObject nodeId s).
Qed.

Lemma notify_keys fuel note s :
  note ≠ ModelReset →
  ∃ s', notify fuel note s = Some s' ∧
    dom (_nodeGraphicsObjects s')
      = nodeKeysAfter (dom (_nodeGraphicsObjects s)) note ∧
    dom (_connectionGraphicsObjects s')
      = connectionKeysAfter (dom (_connectionGraphicsObjects s)) note ∧
    _draftConnection s' = draftAfter (_draftConnection s) note.
Proof.
  intros Hnote. destruct note as [cid|cid|n|n|n|n|]; [..|done];
    eexists; (split; [reflexivity|]); cbn [nodeKeysAfter connectionKeysAfter].
  - unfold onConnectionCreated. rewrite !updateAttachedNodes_id. cbn.
    rewrite dom_insert_L. by destruct (_draftConnection s).
  - destruct (onConnectionDeleted_fields cid s) as (-> & -> & ->).
    by rewrite dom_delete_L.
  - cbn. rewrite dom_insert_L. by destruct (_draftConnection s).
  - rewrite onNodeDeleted_nodes, dom_delete_L.
    destruct (onNodeDeleted_frame n s) as (_ & _ & _ & -> & -> & _).
    by destruct (_draftConnection s).
  - destruct (onNodeObserved_id n s) as [-> _].
    by destruct (_draftConnection s).
  - destruct (onNodeObserved_id n s) as [_ ->].
    by destruct (_draftConnection s).
Qed.

(** X8. Whatever signals other than [modelReset] the model emits, in
    whatever order and however often, the handlers return, and the key
    sets of the two maps afterwards are those got by replaying the
    signals as insertions and removals on the key sets before: a repeated
    creation and a deletion of an absent id change no key set. The draft
    connection ends only with the deletion of a connection of its id. *)
Theorem signals_replay_on_key_sets fuel events s :
  Forall (λ e, e.2 ≠ ModelReset) events →
  ∃ s', deliver fuel events s = Some s' ∧
    dom (_nodeGraphicsObjects s')
      = foldl nodeKeysAfter (dom (_nodeGraphicsObjects s)) events.*2 ∧
    dom (_connectionGraphicsObjects s')
      = foldl connectionKeysAfter (dom (_connectionGraphicsObjects s)) events.*2 ∧
    _draftConnection s' = foldl draftAfter (_draftConnection s) events.*2.
Proof.
  revert s. induction events as [|[m note] events IH]; intros s Hall.
  - by exists s.
  - apply Forall_cons in Hall as [Hnote Hall]. cbn in Hnote.
    destruct (notify_keys fuel note (modelChanged m s) Hnote)
      as (s1 & Hs1 & Hn & Hc & Hd).
    destruct (IH s1 Hall) as (s' & Hs' & Hn' & Hc' & Hd').
    exists s'. cbn. rewrite Hs1. split; [done|].
    rewrite Hn', Hc', Hd', Hn, Hc, Hd. done.
Qed.

Lemma signals_replay_on_key_sets_witness :
  ∃ s', deliver 0
          [(chainModel, NodeCreated 3%N); (chainModel, NodeCreated 3%N);
           (chainModel, ConnectionDeleted (mkConnectionId 0 0 1 0));
           (chainModel, NodeDeleted 3%N)]
          (initialScene chainModel) = Some s' ∧
        dom (_nodeGraphicsObjects s') = ({[3%N]} ∪ ({[3%N]} ∪ ∅)) ∖ {[3%N]}.
Proof.
  destruct (signals_replay_on_key_sets 0
              [(chainModel, NodeCreated 3%N); (chainModel, NodeCreated 3%N);
               (chainModel, ConnectionDeleted (mkConnectionId 0 0 1 0));
               (chainModel, NodeDeleted 3%N)]
              (initialScene chainModel)) as (s' & Hs' & Hn & _).
  - repeat constructor; discriminate.
  - exists s'. split; [exact Hs'|]. rewrite Hn. cbn. by rewrite dom_empty_L.
Defined.

(** ** Creating and deleting one id *)

(** X9. Round trips of the handlers. A visual that a creation handler
    has filed is found by the lookup and is built for the id. When the
    id had no visual, creation followed by deletion gives back the map
    as it was, for nodes and for connections; the deletion of the
    connection still ends a draft connection that carries the id. *)
Theorem create_then_delete_restores nodeId cid s :
  nodeGraphicsObject nodeId (onNodeCreated nodeId s)
    = Some (mkNodeGraphicsObject (_allocated s) nodeId) ∧
  connectionGraphicsObject cid (onConnectionCreated cid s)
    = Some (mkConnectionGraphicsObject (_allocated s) cid) ∧
  (nodeGraphicsObject nodeId s = None →
   _nodeGraphicsObjects (onNodeDeleted nodeId (onNodeCreated nodeId s))
     = _nodeGraphicsObjects s) ∧
  (connectionGraphicsObject cid s = None →
   _connectionGraphicsObjects
     (onConnectionDeleted cid (onConnectionCreated cid s))
     = _connectionGraphicsObjects s) ∧
  _draftConnection (onConnectionDeleted cid (onConnectionCreated cid s))
    = draftAfter (_draftConnection s) (ConnectionDeleted cid).
Proof.
  assert (Hcreated : onConnectionCreated cid s = setConnectionGraphicsObject cid s).
  { unfold onConnectionCreated. by rewrite !updateAttachedNodes_id. }
  destruct (onConnectionDeleted_fields cid (onConnectionCreated cid s))
    as (Hc & _ & Hd).
  rewrite Hc, Hd, Hcreated, onNodeDeleted_nodes.
  unfold nodeGraphicsObject, connectionGraphicsObject, onNodeCreated. cbn.
  rewrite !lookup_insert_eq. repeat split.
  - intros Hnone. apply delete_insert_id.
    by destruct (_nodeGraphicsObjects s !! nodeId).
  - intros Hnone. apply delete_insert_id.
    by destruct (_connectionGraphicsObjects s !! cid).
Qed.

Lemma create_then_delete_restores_witness :
  _nodeGraphicsObjects (onNodeDeleted 5%N (onNodeCreated 5%N busyScene))
  = _nodeGraphicsObjects busyScene.
Proof.
  destruct (create_then_delete_restores 5%N (mkConnectionId 0 0 1 0) busyScene)
    as (_ & _ & H & _).
  apply H. reflexivity.
Defined.

(** X10. A creation for an id that already has a visual replaces it:
    the key set stays, the other visuals stay, the id gets a newly made
    object and the scene no longer holds the old one. This holds for
    [onNodeCreated] and for [onConnectionCreated]. *)
Theorem create_on_existing_replaces s :
  sceneOk s →
  (∀ nodeId old, nodeGraphicsObject nodeId s = Some old →
     dom (_nodeGraphicsObjects (onNodeCreated nodeId s))
       = dom (_nodeGraphicsObjects s) ∧
     nodeGraphicsObject nodeId (onNodeCreated nodeId s)
       = Some (mkNodeGraphicsObject (_allocated s) nodeId) ∧
     (∀ other, other ≠ nodeId →
        nodeGraphicsObject other (onNodeCreated nodeId s)
          = nodeGraphicsObject other s) ∧
     ¬ holdsNodeObject (onNodeCreated nodeId s) (ngo_object old)) ∧
  (∀ cid old, connectionGraphicsObject cid s = Some old →
     dom (_connectionGraphicsObjects (onConnectionCreated cid s))
       = dom (_connectionGraphicsObjects s) ∧
     connectionGraphicsObject cid (onConnectionCreated cid s)
       = Some (mkConnectionGraphicsObject (_allocated s) cid) ∧
     (∀ other, other ≠ cid →
        connectionGraphicsObject other (onConnectionCreated cid s)
          = connectionGraphicsObject other s) ∧
     ¬ holdsConnectionObject (onConnectionCreated cid s) (cgo_object old)).
Proof.
  intros [Hn Hc Hd Hno Hco Hdo Hk]. split.
  - intros nodeId old. unfold nodeGraphicsObject, onNodeCreated. cbn.
    destruct (_nodeGraphicsObjects s !! nodeId) as [x|] eqn:Hx; [|done].
    intros ?; simplify_eq. rewrite lookup_insert_eq. repeat split.
    + rewrite dom_insert_L. apply elem_of_dom_2 in Hx. set_solver.
    + intros other Hne. by rewrite lookup_insert_ne.
    + intros (n & o & Ho & Heq). cbn in Ho.
      destruct (decide (nodeId = n)) as [<-|Hne].
      * rewrite lookup_insert_eq in Ho. injection Ho as <-.
        cbn in Heq. destruct (Hn nodeId old Hx). lia.
      * rewrite lookup_insert_ne in Ho by done.
        apply Hne. symmetry. by apply (Hno n nodeId o old).
  - intros cid old.
    assert (Hcreated :
      onConnectionCreated cid s = setConnectionGraphicsObject cid s).
    { unfold onConnectionCreated. by rewrite !updateAttachedNodes_id. }
    rewrite Hcreated. unfold connectionGraphicsObject. cbn.
    destruct (_connectionGraphicsObjects s !! cid) as [x|] eqn:Hx; [|done].
    intros ?; simplify_eq. rewrite lookup_insert_eq. repeat split.
    + rewrite dom_insert_L. apply elem_of_dom_2 in Hx. set_solver.
    + intros other Hne. by rewrite lookup_insert_ne.
    + intros [(c & o & Ho & Heq)|(d & Hd' & Heq)]; cbn in *.
      * destruct (decide (cid = c)) as [<-|Hne].
        -- rewrite lookup_insert_eq in Ho. injection Ho as <-.
           cbn in Heq. destruct (Hc cid old Hx). lia.
        -- rewrite lookup_insert_ne in Ho by done.
           apply Hne. symmetry. by apply (Hco c cid o old).
      * by apply (Hdo cid old d).
Qed.

Lemma create_on_existing_replaces_witness :
  ¬ holdsNodeObject (onNodeCreated 0%N busyScene) 1.
Proof.
  destruct (create_on_existing_replaces busyScene) as [H _].
  - apply makeDraftConnection_ok, onConnectionCreated_ok,
      setNodeGraphicsObject_ok, setNodeGraphicsObject_ok,
      resetDraftConnection_ok, makeDraftConnection_ok, sceneOk_empty.
  - destruct (H 0%N (mkNodeGraphicsObject 1 0) eq_refl) as (_ & _ & _ & Hgone).
    exact Hgone.
Defined.

(** ** clearScene *)

Lemma notify_createsNothing fuel note s :
  createsNothing note →
  ∃ s', notify fuel note s = Some s' ∧
    _nodeGraphicsObjects s' ⊆ _nodeGraphicsObjects s ∧
    _connectionGraphicsObjects s' ⊆ _connectionGraphicsObjects s ∧
    _allocated s' = _allocated s ∧
    ∀ n, note = NodeDeleted n → _nodeGraphicsObjects s' !! n = None.
Proof.
  intros Hnote. destruct note as [cid|cid|n|n|n|n|]; try done;
    eexists; (split; [reflexivity|]).
  - destruct (onConnectionDeleted_fields cid s) as (-> & -> & _).
    destruct (onConnectionDeleted_frame cid s) as (_ & _ & _ & ->).
    repeat split; [done|apply delete_subseteq|done].
  - rewrite onNodeDeleted_nodes.
    destruct (onNodeDeleted_frame n s) as (_ & _ & _ & -> & _ & ->).
    repeat split; [apply delete_subseteq|done|].
    intros n' [= <-]. apply lookup_delete_eq.
  - destruct (onNodeObserved_id n s) as [-> _]. by repeat split.
  - destruct (onNodeObserved_id n s) as [_ ->]. by repeat split.
Qed.

Lemma deliver_createsNothing fuel events s :
  Forall (λ e, createsNothing e.2) events →
  ∃ s', deliver fuel events s = Some s' ∧
    _nodeGraphicsObjects s' ⊆ _nodeGraphicsObjects s ∧
    _connectionGraphicsObjects s' ⊆ _connectionGraphicsObjects s ∧
    _allocated s' = _allocated s ∧
    ∀ n m, (m, NodeDeleted n) ∈ events → _nodeGraphicsObjects s' !! n = None.
Proof.
  revert s. induction events as [|[m note] events IH]; intros s Hall.
  - exists s. repeat split; [done..|]. by intros n m ?%elem_of_nil.
  - apply Forall_cons in Hall as [Hnote Hall]. cbn in Hnote.
    destruct (notify_createsNothing fuel note (modelChanged m s) Hnote)
      as (s1 & Hs1 & Hn1 & Hc1 & Ha1 & Hgone1).
    destruct (IH s1 Hall) as (s' & Hs' & Hn' & Hc' & Ha' & Hgone').
    exists s'. cbn [deliver]. rewrite Hs1. split; [done|].
    cbn in Hn1, Hc1, Ha1.
    split; [by etrans|]. split; [by etrans|]. split; [congruence|].
    intros n m' [Heq|Hin]%elem_of_cons.
    + injection Heq as _ <-.
      eapply lookup_weaken_None; [|exact Hn']. by apply Hgone1.
    + by eapply Hgone'.
Qed.

Lemma deleteNodes_createsNothing fuel deleteNode ids s :
  (∀ n m, Forall (λ e, createsNothing e.2) (emitted (deleteNode n m))) →
  (∀ n m, ∃ m', (m', NodeDeleted n) ∈ emitted (deleteNode n m)) →
  ∃ s', deleteNodes fuel deleteNode ids s = Some s' ∧
    _nodeGraphicsObjects s' ⊆ _nodeGraphicsObjects s ∧
    _connectionGraphicsObjects s' ⊆ _connectionGraphicsObjects s ∧
    _allocated s' = _allocated s ∧
    ∀ n, n ∈ ids → _nodeGraphicsObjects s' !! n = None.
Proof.
  intros Hquiet Hannounce. revert s.
  induction ids as [|nodeId ids IH]; intros s.
  - exists s. repeat split; [done..|]. by intros n ?%elem_of_nil.
  - destruct (deliver_createsNothing fuel
                (emitted (deleteNode nodeId (_graphModel s))) s (Hquiet _ _))
      as (s1 & Hs1 & Hn1 & Hc1 & Ha1 & Hgone1).
    destruct (IH (modelChanged
                    (modelAfter (deleteNode nodeId (_graphModel s))) s1))
      as (s' & Hs' & Hn' & Hc' & Ha' & Hgone').
    exists s'. cbn [deleteNodes]. rewrite Hs1. split; [done|].
    cbn in Hn', Hc', Ha'.
    split; [by etrans|]. split; [by etrans|]. split; [congruence|].
    intros n [->|Hin]%elem_of_cons.
    + destruct (Hannounce nodeId (_graphModel s)) as (m' & Hin).
      eapply lookup_weaken_None; [|exact Hn']. by eapply Hgone1.
    + by apply Hgone'.
Qed.

(** X11. [clearScene] reads the node ids once and asks the model to
    delete each of them. When the model answers every [deleteNode(n)]
    with signals that create nothing and do not reset, among them
    [nodeDeleted(n)], the call returns, no visual has been created,
    every visual left was there before, and no node id read at the start
    has a visual any more; a scene whose node visuals all belong to ids
    of the model is left without node visuals. *)
Theorem clearScene_removes_node_visuals fuel deleteNode s :
  (∀ n m, Forall (λ e, createsNothing e.2) (emitted (deleteNode n m))) →
  (∀ n m, ∃ m', (m', NodeDeleted n) ∈ emitted (deleteNode n m)) →
  ∃ s', clearScene fuel deleteNode s = Some s' ∧
    _nodeGraphicsObjects s' ⊆ _nodeGraphicsObjects s ∧
    _connectionGraphicsObjects s' ⊆ _connectionGraphicsObjects s ∧
    _allocated s' = _allocated s ∧
    (∀ n, n ∈ allNodeIds (_graphModel s) → nodeGraphicsObject n s' = None) ∧
    (dom (_nodeGraphicsObjects s) ⊆ list_to_set (allNodeIds (_graphModel s)) →
     _nodeGraphicsObjects s' = ∅).
Proof.
  intros Hquiet Hannounce.
  destruct (deleteNodes_createsNothing fuel deleteNode
              (allNodeIds (_graphModel s)) s Hquiet Hannounce)
    as (s' & Hs' & Hn & Hc & Ha & Hgone).
  exists s'. split; [done|]. split; [done|]. split; [done|]. split; [done|].
  split.
  - intros n Hin. unfold nodeGraphicsObject. by rewrite (Hgone n Hin).
  - intros Hsub. apply map_empty. intros n.
    destruct (_nodeGraphicsObjects s' !! n) as [o|] eqn:Ho; [|done].
    exfalso.
    assert (Hin : n ∈ dom (_nodeGraphicsObjects s)).
    { apply elem_of_dom. exists o. by eapply lookup_weaken. }
    apply Hsub, elem_of_list_to_set, Hgone in Hin. congruence.
Qed.

Lemma clearScene_removes_node_visuals_witness :
  ∃ s', clearScene 0
          (λ n m, mkDeleteNodeRun [(m, NodeDeleted n)] m)
          (onNodeCreated 1%N (onNodeCreated 0%N (initialScene chainModel)))
        = Some s' ∧
        _nodeGraphicsObjects s' = ∅.
Proof.
  destruct (clearScene_removes_node_visuals 0
              (λ n m, mkDeleteNodeRun [(m, NodeDeleted n)] m)
              (onNodeCreated 1%N (onNodeCreated 0%N (initialScene chainModel))))
    as (s' & Hs' & _ & _ & _ & _ & Hempty).
  - intros n m. repeat constructor.
  - intros n m. exists m. apply list_elem_of_here.
  - exists s'. split; [exact Hs'|]. apply Hempty.
    apply (bool_decide_unpack _). vm_compute. exact I.
Defined.

End QtNodes.
